(** * Multi-view image transforms of [dataset/transform_3d.py]

    A shallow embedding of the five pipeline stages of the file
    (padding, normalisation, flipping, photometric distortion and
    rescaling) together with the properties their specification states.

    Conventions of the embedding:
    - a Python [float] and the elements of a float array are exact
      rationals ([Q]); comparisons and arithmetic are those of [Q],
      except for the product that is cut to an integer, where the last
      bit decides the result: that product is rounded to the nearest
      double ([float_mul]);
    - a Python [int] is a [Z]; array dimensions, which are lengths, are
      [nat];
    - an image is an [ndarray]: an element type tag and the rows of
      three-channel pixels (the record carries H x W x 3 arrays);
    - the record handed from stage to stage is a dictionary
      [gmap string pyval];
    - a call either returns a value or raises: [result];
    - the global random generator is a tape of uniform samples of
      [[0, 1)] with a cursor, threaded through every call. *)

From Stdlib Require Import ZArith QArith Qround Qabs Qpower Lqa Lia.
From stdpp Require Import base option list gmap strings.

Local Open Scope Z_scope.

(** ** Exceptions and results *)

Inductive exn : Type :=
| AssertionError
| KeyError
| TypeError
| IndexError
| ZeroDivisionError
| UnboundLocalError.

Inductive result (A : Type) : Type :=
| Ok (a : A)
| Raise (e : exn).

Arguments Ok {A} a.
Arguments Raise {A} e.

Definition bind {A B : Type} (m : result A) (k : A -> result B) : result B :=
  match m with
  | Ok a => k a
  | Raise e => Raise e
  end.

Notation "'let*' x ':=' m 'in' k" := (bind m (fun x => k))
  (at level 10, x name, m at level 100, k at level 200).

(** [[f(x) for x in l]] where [f] may raise: the first exception stops
    the comprehension. *)
Fixpoint comprehension {A B : Type} (f : A -> result B) (l : list A)
  : result (list B) :=
  match l with
  | [] => Ok []
  | x :: l' =>
      let* y := f x in
      let* ys := comprehension f l' in
      Ok (y :: ys)
  end.

(** ** Arrays *)

Inductive np_dtype : Type := uint8 | float32 | float64.

Definition np_dtype_eqb (a b : np_dtype) : bool :=
  match a, b with
  | uint8, uint8 | float32, float32 | float64, float64 => true
  | _, _ => false
  end.

(** One pixel: the three entries of the channel axis. *)
Definition pixel : Type := (Q * Q * Q)%type.

Record ndarray : Type := Ndarray {
  dtype : np_dtype;
  rows : list (list pixel)
}.

(** [img.shape[0]] and [img.shape[1]]. *)
Definition shape0 (img : ndarray) : nat := length (rows img).
Definition shape1 (img : ndarray) : nat := length (hd [] (rows img)).

(** [img[r, c]]. *)
Definition at_px (img : ndarray) (r c : nat) : option pixel :=
  row ← rows img !! r; row !! c.

(** The array is rectangular, [h] rows of [w] pixels. *)
Definition has_shape (img : ndarray) (h w : nat) : Prop :=
  length (rows img) = h /\ Forall (fun row => length row = w) (rows img).

(** The lengths of the rows, in order: two arrays with the same [dims]
    have the same height and, row by row, the same width. *)
Definition dims (img : ndarray) : list nat := map length (rows img).

(** Elementwise update of an array, as the in-place operators do. *)
Definition map_px (f : pixel -> pixel) (img : ndarray) : ndarray :=
  Ndarray (dtype img) (map (map f) (rows img)).

(** Arithmetic on pixels, channel by channel. *)
Definition psub (p m : pixel) : pixel :=
  let '(a, b, c) := p in let '(ma, mb, mc) := m in
  ((a - ma)%Q, (b - mb)%Q, (c - mc)%Q).

Definition padd (p m : pixel) : pixel :=
  let '(a, b, c) := p in let '(ma, mb, mc) := m in
  ((a + ma)%Q, (b + mb)%Q, (c + mc)%Q).

Definition pmul (p m : pixel) : pixel :=
  let '(a, b, c) := p in let '(ma, mb, mc) := m in
  ((a * ma)%Q, (b * mb)%Q, (c * mc)%Q).

Definition pdiv (p m : pixel) : pixel :=
  let '(a, b, c) := p in let '(ma, mb, mc) := m in
  ((a / ma)%Q, (b / mb)%Q, (c / mc)%Q).

(** BGR to RGB and back: the first and the last channel change places. *)
Definition swap_rb (p : pixel) : pixel :=
  let '(a, b, c) := p in (c, b, a).

(** Two pixels hold the same numbers. *)
Definition px_eq (p q : pixel) : Prop :=
  let '(a, b, c) := p in let '(a', b', c') := q in
  (a == a')%Q /\ (b == b')%Q /\ (c == c')%Q.

(** Two arrays hold the same numbers, entry by entry: the comparison
    of arrays within a tolerance, the tolerance of exact arithmetic
    being zero. *)
Definition allclose (x y : ndarray) : Prop :=
  Forall2 (Forall2 px_eq) (rows x) (rows y).

(** ** The record *)

Inductive pyval : Type :=
| VNone
| VBool (b : bool)
| VInt (z : Z)
| VSize (hw : Z * Z)
| VFloats (l : list Q)
| VImgs (l : list ndarray)
| VNormCfg (mean std : pixel) (to_rgb : bool)
| VMetas (intrinsic : list (list (list Q))).

(** [results[key]] read as a list of images. *)
Definition get_imgs (results : gmap string pyval) (key : string)
  : result (list ndarray) :=
  match results !! key with
  | Some (VImgs l) => Ok l
  | Some _ => Raise TypeError
  | None => Raise KeyError
  end.

(** [key in results]. *)
Definition has_key (results : gmap string pyval) (key : string) : bool :=
  bool_decide (is_Some (results !! key)).

(** ** The random generator

    [tape n] is the n-th uniform sample; every primitive reads the
    samples it needs at the cursor and advances it. *)

Record rng : Type := Rng { tape : nat -> Q; cursor : nat }.

Definition next_sample (g : rng) : Q * rng :=
  (tape g (cursor g), Rng (tape g) (S (cursor g))).

(** The samples of a tape are in the unit interval [[0, 1)]. *)
Definition unit_tape (t : nat -> Q) : Prop :=
  forall n, (0 <= t n)%Q /\ (t n < 1)%Q.

(** [random.random()]. *)
Definition random_random (g : rng) : Q * rng := next_sample g.

(** [random.randint(2)]: 0 or 1. *)
Definition random_randint2 (g : rng) : bool * rng :=
  let '(u, g') := next_sample g in
  (if Qlt_le_dec u (1 # 2) then false else true, g').

(** [random.uniform(low, high)]. *)
Definition random_uniform (low high : Q) (g : rng) : Q * rng :=
  let '(u, g') := next_sample g in
  ((low + (high - low) * u)%Q, g').

(** [np.random.rand(n)]. *)
Fixpoint np_random_rand (n : nat) (g : rng) : list Q * rng :=
  match n with
  | O => ([], g)
  | S n' =>
      let '(u, g') := next_sample g in
      let '(us, g'') := np_random_rand n' g' in
      (u :: us, g'')
  end.

(** The index of a channel. *)
Inductive chan : Type := C0 | C1 | C2.

Definition channel (k : chan) (p : pixel) : Q :=
  let '(a, b, c) := p in
  match k with C0 => a | C1 => b | C2 => c end.

(** [random.permutation(3)]: one of the six orders of [0, 1, 2]. *)
Definition random_permutation3 (g : rng) : (chan * chan * chan) * rng :=
  let '(u, g') := next_sample g in
  (match Qfloor (6 * u) with
   | 0 => (C0, C1, C2)
   | 1 => (C0, C2, C1)
   | 2 => (C1, C0, C2)
   | 3 => (C1, C2, C0)
   | 4 => (C2, C0, C1)
   | _ => (C2, C1, C0)
   end, g').

(** [img[..., 0]] and [img[..., 1]] updated in place. *)
Definition on_chan0 (f : Q -> Q) (p : pixel) : pixel :=
  let '(a, b, c) := p in (f a, b, c).

Definition on_chan1 (f : Q -> Q) (p : pixel) : pixel :=
  let '(a, b, c) := p in (a, f b, c).

Definition on_all (f : Q -> Q) (p : pixel) : pixel :=
  let '(a, b, c) := p in (f a, f b, f c).

(** [img[..., perm]]. *)
Definition take_channels (perm : chan * chan * chan) (p : pixel) : pixel :=
  let '(i, j, k) := perm in (channel i p, channel j p, channel k p).

(** ** Numbers and sequences of Python *)

(** [int(x)] of a float: the fraction is dropped, towards zero. *)
Definition py_int (x : Q) : Z := Z.quot (Qnum x) (Z.pos (Qden x)).

(** [round(x)] of a float: the nearest integer, a tie going to the even
    neighbour. *)
Definition py_round (x : Q) : Z :=
  let f := Qfloor x in
  let r := (x - inject_Z f)%Q in
  if Qlt_le_dec r (1 # 2) then f
  else if Qlt_le_dec (1 # 2) r then f + 1
  else if Z.even f then f else f + 1.

(** [2 ** k] for an exponent of either sign. *)
Definition pow2 (k : Z) : Q := (2 ^ k)%Q.

(** The binary exponent [e] of a number other than zero:
    [2 ** e <= |x| < 2 ** (e + 1)].  The difference of the bit lengths
    of numerator and denominator is [e] or [e + 1]. *)
Definition exponent (x : Q) : Z :=
  let e := Z.log2 (Z.abs (Qnum x)) - Z.log2 (Z.pos (Qden x)) in
  if Qle_bool (pow2 e) (Qabs x) then e else e - 1.

(** The double nearest to [x]: the significand is cut to 53 bits, a tie
    going to the even significand (the rounding of IEEE 754 binary64
    arithmetic).  The exponent is not bounded: a number below the
    smallest normal double is far below one, and a number above the
    largest double does not occur as an image size. *)
Definition round_double (x : Q) : Q :=
  let x := Qred x in
  if Qeq_bool x 0 then 0%Q
  else let ulp := pow2 (exponent x - 52) in
       (inject_Z (py_round (x / ulp)) * ulp)%Q.

(** [a * b] on floats, an [int] operand being converted first: the
    operands are read as doubles and the exact product is rounded to the
    nearest double. *)
Definition float_mul (a b : Q) : Q :=
  round_double (round_double a * round_double b).

(** [l[i]]. *)
Definition index {A : Type} (l : list A) (i : nat) : result A :=
  match l !! i with
  | Some x => Ok x
  | None => Raise IndexError
  end.

(** [a / b] on floats. A zero divisor raises (numpy scalars would give
    an infinity instead, which the rationals do not have). *)
Definition truediv (a b : Q) : result Q :=
  if Qeq_bool b 0 then Raise ZeroDivisionError else Ok (a / b)%Q.

(** ** The image library (mmcv)

    The transforms call into the image library for every array
    operation; its code is not part of the file, so each primitive used
    is written down here from what the specification says about it. *)

Module mmcv.

(** Modelled from the spec: [mmcv.impad(img, shape=(H, W), pad_val=v)]
    is absent from the sources; the specification has it pad the image
    to the fixed shape with a constant fill value.  The image keeps its
    place in the top-left corner, every row is extended on the right
    and new rows are appended at the bottom.  Padding only adds pixels:
    the specification says nothing of an image larger than the target,
    and the amounts added are cut off at zero. *)
Definition impad (img : ndarray) (shape : Z * Z) (pad_val : Q) : ndarray :=
  let fill : pixel := (pad_val, pad_val, pad_val) in
  let width := Z.to_nat (Z.max (snd shape - Z.of_nat (shape1 img)) 0) in
  let height := Z.to_nat (Z.max (fst shape - Z.of_nat (shape0 img)) 0) in
  Ndarray (dtype img)
    (map (fun row => row ++ replicate width fill) (rows img)
     ++ replicate height (replicate (shape1 img + width) fill)).

(** Modelled from the spec: [mmcv.impad_to_multiple(img, divisor,
    pad_val=v)] is absent from the sources; the specification has it
    pad up to the next multiple of the divisor in each spatial
    dimension, [ceil(dim / divisor) * divisor].  The quotient is a true
    division, which raises on a zero divisor. *)
Definition impad_to_multiple (img : ndarray) (divisor : Z) (pad_val : Q)
  : result ndarray :=
  if divisor =? 0 then Raise ZeroDivisionError
  else
    let pad_h := Qceiling (inject_Z (Z.of_nat (shape0 img)) / inject_Z divisor) * divisor in
    let pad_w := Qceiling (inject_Z (Z.of_nat (shape1 img)) / inject_Z divisor) * divisor in
    Ok (impad img (pad_h, pad_w) pad_val).

(** Modelled from the spec: [mmcv.imnormalize(img, mean, std, to_rgb)]
    is absent from the sources; the specification has it optionally
    reorder the channels (BGR to RGB) and then apply
    [(pixel - mean) / std] per channel.  The result is a float array. *)
Definition imnormalize (img : ndarray) (mean std : pixel) (to_rgb : bool)
  : ndarray :=
  Ndarray float32
    (map (map (fun p => pdiv (psub (if to_rgb then swap_rb p else p) mean) std))
       (rows img)).

(** Modelled from the spec: the inverse map [denormalize] is absent
    from the sources; it undoes the arithmetic, [pixel * std + mean],
    and then puts the channels back in their order (RGB to BGR) when
    asked to. *)
Definition imdenormalize (img : ndarray) (mean std : pixel) (to_bgr : bool)
  : ndarray :=
  Ndarray float32
    (map (map (fun p =>
                 let q := padd (pmul p std) mean in
                 if to_bgr then swap_rb q else q))
       (rows img)).

(** Modelled from the spec: [mmcv.imflip(img)] is absent from the
    sources; the specification has it mirror the image left-right, so
    every row is read backwards. *)
Definition imflip (img : ndarray) : ndarray :=
  Ndarray (dtype img) (map (@rev pixel) (rows img)).

Section Interpolation.

(** The interpolation of the resize routine: the pixel of the output at
    a row and a column, from the source array and the output size. *)
Variable interp : ndarray -> nat -> nat -> nat -> nat -> pixel.

(** Modelled from the spec: [mmcv.imresize(img, (w, h))] is absent from
    the sources; the specification has it resize the image to the given
    dimensions.  The output is a new array of [h] rows of [w] pixels of
    the element type of the input, each pixel interpolated. *)
Definition imresize (img : ndarray) (size : Z * Z) : ndarray :=
  let w := Z.to_nat (fst size) in
  let h := Z.to_nat (snd size) in
  Ndarray (dtype img)
    (map (fun r => map (fun c => interp img h w r c) (seq 0 w)) (seq 0 h)).

End Interpolation.

End mmcv.

(** ** PadMultiViewImage *)

Module PadMultiViewImage.

Record t : Type := {
  size : option (Z * Z);
  size_divisor : option Z;
  pad_val : Q
}.

Definition __init__ (size : option (Z * Z)) (size_divisor : option Z)
    (pad_val : Q) : result t :=
  (* assert size is not None or size_divisor is not None *)
  if negb (bool_decide (is_Some size) || bool_decide (is_Some size_divisor))
  then Raise AssertionError
  else
    (* if size is not None: self.size_divisor = size_divisor = None *)
    let size_divisor := if bool_decide (is_Some size) then None else size_divisor in
    (* assert size is None or size_divisor is None *)
    if negb (bool_decide (size = None) || bool_decide (size_divisor = None))
    then Raise AssertionError
    else Ok {| size := size; size_divisor := size_divisor; pad_val := pad_val |}.

(** The three image lists a call pads: ['img'] always, ['extra_img']
    and ['ori_img'] when the record has them. *)
Definition pad_list (self : t) (imgs : list ndarray) : result (list ndarray) :=
  match size self, size_divisor self with
  | Some sz, _ =>
      Ok (map (fun img => mmcv.impad img sz (pad_val self)) imgs)
  | None, Some d =>
      comprehension (fun img => mmcv.impad_to_multiple img d (pad_val self)) imgs
  | None, None => Raise UnboundLocalError
  end.

Definition pad_optional (self : t) (results : gmap string pyval) (key : string)
  : result (option (list ndarray)) :=
  if has_key results key
  then
    let* imgs := get_imgs results key in
    let* padded := pad_list self imgs in
    Ok (Some padded)
  else Ok None.

Definition opt_size (s : option (Z * Z)) : pyval :=
  match s with Some hw => VSize hw | None => VNone end.

Definition opt_int (s : option Z) : pyval :=
  match s with Some z => VInt z | None => VNone end.

Definition set_optional (key : string) (v : option (list ndarray))
    (results : gmap string pyval) : gmap string pyval :=
  match v with
  | Some l => <[key := VImgs l]> results
  | None => results
  end.

Definition _pad_img (self : t) (results : gmap string pyval)
  : result (gmap string pyval) :=
  match size self, size_divisor self with
  | None, None =>
      (* neither branch runs: [padded_img] is read before it is bound *)
      Raise UnboundLocalError
  | _, _ =>
      let* imgs := get_imgs results "img" in
      let* padded_img := pad_list self imgs in
      let* padded_extra_img := pad_optional self results "extra_img" in
      let* padded_ori_img := pad_optional self results "ori_img" in
      Ok (set_optional "ori_img" padded_ori_img
            (set_optional "extra_img" padded_extra_img
               (<["pad_size_divisor" := opt_int (size_divisor self)]>
                  (<["pad_fixed_size" := opt_size (size self)]>
                     (<["img" := VImgs padded_img]> results)))))
  end.

Definition __call__ (self : t) (results : gmap string pyval)
  : result (gmap string pyval) :=
  _pad_img self results.

End PadMultiViewImage.

(** ** NormalizeMultiviewImage *)

Module NormalizeMultiviewImage.

Record t : Type := {
  mean : pixel;
  std : pixel;
  to_rgb : bool
}.

Definition __init__ (mean std : pixel) (to_rgb : bool) : t :=
  {| mean := mean; std := std; to_rgb := to_rgb |}.

Definition __call__ (self : t) (results : gmap string pyval)
  : result (gmap string pyval) :=
  let* imgs := get_imgs results "img" in
  Ok (<["img_norm_cfg" := VNormCfg (mean self) (std self) (to_rgb self)]>
        (<["img" := VImgs (map (fun img =>
                     mmcv.imnormalize img (mean self) (std self) (to_rgb self))
                   imgs)]> results)).

End NormalizeMultiviewImage.

(** ** RandomFlip *)

Module RandomFlip.

Record t : Type := { prob : Q }.

Definition __init__ (prob : Q) : t := {| prob := prob |}.

Definition __call__ (self : t) (results : gmap string pyval) (g : rng)
  : result (gmap string pyval * rng) :=
  (* flip = random.random() < self.prob *)
  let '(u, g') := random_random g in
  let flip := if Qlt_le_dec u (prob self) then true else false in
  let* results :=
    (if flip
     then
       let* imgs := get_imgs results "img" in
       Ok (<["img" := VImgs (map mmcv.imflip imgs)]> results)
     else Ok results) in
  Ok (<["flip" := VBool flip]> results, g').

End RandomFlip.

(** ** PhotoMetricDistortionMultiViewImage *)

Module PhotoMetricDistortionMultiViewImage.

Record t : Type := {
  brightness_delta : Q;
  contrast_lower : Q;
  contrast_upper : Q;
  saturation_lower : Q;
  saturation_upper : Q;
  hue_delta : Q;
  use_swap_channel : bool
}.

Definition __init__ (brightness_delta : Q) (contrast_range saturation_range : Q * Q)
    (hue_delta : Q) (use_swap_channel : bool) : t :=
  {| brightness_delta := brightness_delta;
     contrast_lower := fst contrast_range;
     contrast_upper := snd contrast_range;
     saturation_lower := fst saturation_range;
     saturation_upper := snd saturation_range;
     hue_delta := hue_delta;
     use_swap_channel := use_swap_channel |}.

(** The three statements of the hue step, each a pass over the hue
    channel of the whole array:
      [img[..., 0] += offset]
      [img[..., 0][img[..., 0] > 360] -= 360]
      [img[..., 0][img[..., 0] < 0] += 360] *)
Definition hue_add (offset : Q) (img : ndarray) : ndarray :=
  map_px (on_chan0 (fun h => (h + offset)%Q)) img.

Definition hue_wrap_high (img : ndarray) : ndarray :=
  map_px (on_chan0 (fun h => if Qlt_le_dec 360 h then (h - 360)%Q else h)) img.

Definition hue_wrap_low (img : ndarray) : ndarray :=
  map_px (on_chan0 (fun h => if Qlt_le_dec h 0 then (h + 360)%Q else h)) img.

Definition random_hue (offset : Q) (img : ndarray) : ndarray :=
  hue_wrap_low (hue_wrap_high (hue_add offset img)).

Section Colour.

(** The colour conversions of the image library, [mmcv.bgr2hsv] and
    [mmcv.hsv2bgr], are not part of the file: they are taken as
    parameters, each a map applied to every pixel of the array. *)
Variables bgr2hsv_px hsv2bgr_px : pixel -> pixel.

Definition bgr2hsv (img : ndarray) : ndarray := map_px bgr2hsv_px img.
Definition hsv2bgr (img : ndarray) : ndarray := map_px hsv2bgr_px img.

(** [if random.randint(2): alpha = random.uniform(lower, upper);
    img *= alpha] *)
Definition random_contrast (self : t) (img : ndarray) (g : rng) : ndarray * rng :=
  let '(b, g) := random_randint2 g in
  if b then
    let '(alpha, g) := random_uniform (contrast_lower self) (contrast_upper self) g in
    (map_px (on_all (fun x => (x * alpha)%Q)) img, g)
  else (img, g).

(** The body of the loop, after its assertion. *)
Definition distort (self : t) (img : ndarray) (g : rng) : ndarray * rng :=
  (* random brightness *)
  let '(b, g) := random_randint2 g in
  let '(img, g) :=
    if b then
      let '(delta, g) :=
        random_uniform (- brightness_delta self) (brightness_delta self) g in
      (map_px (on_all (fun x => (x + delta)%Q)) img, g)
    else (img, g) in
  (* mode == 0 --> do random contrast first
     mode == 1 --> do random contrast last
     (the words of the source; its tests are [mode == 1] before the
     conversion and [mode == 0] after the conversion back) *)
  let '(mode, g) := random_randint2 g in
  let '(img, g) := if mode then random_contrast self img g else (img, g) in
  (* convert color from BGR to HSV *)
  let img := bgr2hsv img in
  (* random saturation *)
  let '(b, g) := random_randint2 g in
  let '(img, g) :=
    if b then
      let '(s, g) :=
        random_uniform (saturation_lower self) (saturation_upper self) g in
      (map_px (on_chan1 (fun x => (x * s)%Q)) img, g)
    else (img, g) in
  (* random hue *)
  let '(b, g) := random_randint2 g in
  let '(img, g) :=
    if b then
      let '(offset, g) := random_uniform (- hue_delta self) (hue_delta self) g in
      (random_hue offset img, g)
    else (img, g) in
  (* convert color from HSV to BGR *)
  let img := hsv2bgr img in
  (* random contrast *)
  let '(img, g) := if mode then (img, g) else random_contrast self img g in
  (* randomly swap channels *)
  let '(b, g) := random_randint2 g in
  if b && use_swap_channel self then
    let '(perm, g) := random_permutation3 g in
    (map_px (take_channels perm) img, g)
  else (img, g).

(** [for img in imgs: assert img.dtype == np.float32; ...;
    new_imgs.append(img)] *)
Fixpoint distort_all (self : t) (imgs : list ndarray) (g : rng)
  : result (list ndarray * rng) :=
  match imgs with
  | [] => Ok ([], g)
  | img :: imgs' =>
      if np_dtype_eqb (dtype img) float32 then
        let '(img', g') := distort self img g in
        let* rest := distort_all self imgs' g' in
        Ok (img' :: fst rest, snd rest)
      else Raise AssertionError
  end.

Definition __call__ (self : t) (results : gmap string pyval) (g : rng)
  : result (gmap string pyval * rng) :=
  let* imgs := get_imgs results "img" in
  let* out := distort_all self imgs g in
  Ok (<["img" := VImgs (fst out)]> results, snd out).

End Colour.

End PhotoMetricDistortionMultiViewImage.

(** ** RandomScaleImageMultiViewImage *)

Module RandomScaleImageMultiViewImage.

Record t : Type := {
  scales : list Q;
  ref_focal_len : option Q;
  random_scale : option (list Q);
  pad_scale_rate : list Q
}.

Definition __init__ (scales : list Q) (ref_focal_len : option Q)
    (random_scale : option (list Q)) (pad_scale_rate : option (list Q))
  : result t :=
  let* _ :=
    match random_scale with
    | Some rs =>
        (* assert isinstance(random_scale, list) and len(random_scale) == 2
             and ref_focal_len is None *)
        if (length rs =? 2)%nat && bool_decide (ref_focal_len = None)
        then Ok tt else Raise AssertionError
    | None => Ok tt
    end in
  let* pad_scale_rate :=
    match pad_scale_rate with
    | None => let* s := index scales 0 in Ok [s; s]
    | Some p => Ok p
    end in
  (* assert len(self.scales) == 1 *)
  if (length scales =? 1)%nat
  then Ok {| scales := scales; ref_focal_len := ref_focal_len;
             random_scale := random_scale; pad_scale_rate := pad_scale_rate |}
  else Raise AssertionError.

(** [results['metas']['intrinsic'][:, 0, 0]]. *)
Definition focal_lens (results : gmap string pyval) : result (list Q) :=
  match results !! "metas" with
  | Some (VMetas intrinsic) =>
      comprehension (fun m => let* row := index m 0 in index row 0) intrinsic
  | Some _ => Raise TypeError
  | None => Raise KeyError
  end.

(** Lines 349 to 360: the scale of every image, and the record with
    ['focal_ratios'] where the mode stores it. *)
Definition effective_scales (self : t) (results : gmap string pyval) (g : rng)
  : result (list Q * gmap string pyval * rng) :=
  match ref_focal_len self with
  | None =>
      match random_scale self with
      | Some rs =>
          let* imgs := get_imgs results "img" in
          let '(us, g') := np_random_rand (length imgs) g in
          let* hi := index rs 1 in
          let* lo := index rs 0 in
          let focal_ratios := map (fun u => (u * (hi - lo) + lo)%Q) us in
          let* rand_scales :=
            comprehension (fun focal_ratio =>
                             let* s := index (scales self) 0 in
                             Ok (s * focal_ratio)%Q) focal_ratios in
          Ok (rand_scales, <["focal_ratios" := VFloats focal_ratios]> results, g')
      | None =>
          let* imgs := get_imgs results "img" in
          Ok (concat (replicate (length imgs) (scales self)), results, g)
      end
  | Some ref =>
      let* lens := focal_lens results in
      let* focal_ratios :=
        comprehension (fun focal_len => truediv (ref * 1) focal_len) lens in
      let* rand_scales :=
        comprehension (fun focal_ratio =>
                         let* s := index (scales self) 0 in
                         Ok (s * focal_ratio)%Q) focal_ratios in
      Ok (rand_scales, <["focal_ratios" := VFloats focal_ratios]> results, g)
  end.

(** [[scale / self.pad_scale_rate[k] for scale in rand_scales]]. *)
Definition ratios (self : t) (k : nat) (rand_scales : list Q) : result (list Q) :=
  comprehension (fun scale =>
                   let* p := index (pad_scale_rate self) k in
                   truediv scale p) rand_scales.

(** [[int(img.shape[k] * scale) for img, scale in zip(imgs, rand_scales)]]. *)
Definition sizes (dim : ndarray -> nat) (imgs : list ndarray) (rand_scales : list Q)
  : list Z :=
  zip_with (fun img scale =>
              py_int (float_mul (inject_Z (Z.of_nat (dim img))) scale))
    imgs rand_scales.

(** The pairs [(x_size[idx], y_size[idx])] handed to the resize routine,
    one for every image. *)
Fixpoint resize_targets (idx : nat) (imgs : list ndarray) (x_size y_size : list Z)
  : result (list (Z * Z)) :=
  match imgs with
  | [] => Ok []
  | _ :: imgs' =>
      let* x := index x_size idx in
      let* y := index y_size idx in
      let* rest := resize_targets (S idx) imgs' x_size y_size in
      Ok ((x, y) :: rest)
  end.

Section Resize.

Variable interp : ndarray -> nat -> nat -> nat -> nat -> pixel.

Definition __call__ (self : t) (results : gmap string pyval) (g : rng)
  : result (gmap string pyval * rng) :=
  let* st := effective_scales self results g in
  let '(rand_scales, results, g) := st in
  let* fx := ratios self 1 rand_scales in
  let results := <["focal_ratios_x" := VFloats fx]> results in
  let* fy := ratios self 0 rand_scales in
  let results := <["focal_ratios_y" := VFloats fy]> results in
  let* imgs := get_imgs results "img" in
  let y_size := sizes shape0 imgs rand_scales in
  let x_size := sizes shape1 imgs rand_scales in
  let* targets := resize_targets 0 imgs x_size y_size in
  Ok (<["img" := VImgs (zip_with (mmcv.imresize interp) imgs targets)]> results, g).

End Resize.

End RandomScaleImageMultiViewImage.

(** ** Vocabulary of the properties *)

(** The keys of the record that hold the images of a sample. *)
Definition image_keys : list string := ["img"; "extra_img"; "ori_img"].

(** A key that holds a list of images when the record has it. *)
Definition image_field (results : gmap string pyval) (key : string) : Prop :=
  results !! key = None \/ exists imgs, results !! key = Some (VImgs imgs).

(** A record a padder runs on: images under ['img'], and under the two
    optional keys when present. *)
Definition pad_input (results : gmap string pyval) : Prop :=
  (exists imgs, results !! "img" = Some (VImgs imgs))
  /\ image_field results "extra_img" /\ image_field results "ori_img".

(** [out] is [img] padded to [H] rows of [W] pixels with [fill]: it has
    that size, agrees with [img] wherever [img] has a pixel and holds
    [fill] at every other coordinate. *)
Definition padded (H W : nat) (fill : Q) (img out : ndarray) : Prop :=
  has_shape out H W
  /\ (forall r c p, at_px img r c = Some p -> at_px out r c = Some p)
  /\ (forall r c, (r < H)%nat -> (c < W)%nat -> at_px img r c = None ->
        at_px out r c = Some (fill, fill, fill)).

(** [m] is the smallest multiple of [d] that is at least [n]. *)
Definition smallest_multiple (d n m : Z) : Prop :=
  (d | m) /\ n <= m /\ forall m', (d | m') -> n <= m' -> m <= m'.

(** [out] is [img] padded with [fill] up to the next multiples of [d]:
    its height and its width are [d * ceil(dim / d)], the smallest
    multiples of [d] that reach the dimensions of [img]. *)
Definition padded_to_multiple (d : Z) (fill : Q) (img out : ndarray) : Prop :=
  exists (h w : nat) (mh mw : Z),
    has_shape img h w
    /\ mh = Qceiling (inject_Z (Z.of_nat h) / inject_Z d) * d
    /\ mw = Qceiling (inject_Z (Z.of_nat w) / inject_Z d) * d
    /\ smallest_multiple d (Z.of_nat h) mh
    /\ smallest_multiple d (Z.of_nat w) mw
    /\ padded (Z.to_nat mh) (Z.to_nat mw) fill img out.

(** The map of the normaliser on one pixel: the channels reordered when
    asked to, then [(pixel - mean) / std] channel by channel. *)
Definition normalize_px (self : NormalizeMultiviewImage.t) (p : pixel) : pixel :=
  let p := if NormalizeMultiviewImage.to_rgb self then swap_rb p else p in
  let '(a, b, c) := p in
  let '(ma, mb, mc) := NormalizeMultiviewImage.mean self in
  let '(sa, sb, sc) := NormalizeMultiviewImage.std self in
  (((a - ma) / sa)%Q, ((b - mb) / sb)%Q, ((c - mc) / sc)%Q).

(** No channel has a zero deviation. *)
Definition nonzero_std (std : pixel) : Prop :=
  let '(sa, sb, sc) := std in ~ (sa == 0)%Q /\ ~ (sb == 0)%Q /\ ~ (sc == 0)%Q.

(** An array that keeps the element type and the row lengths of another. *)
Definition same_layout (img out : ndarray) : Prop :=
  dtype out = dtype img /\ dims out = dims img.

(** The hue of a pixel of an HSV array: its first channel. *)
Definition hue (p : pixel) : Q := channel C0 p.

(** Every pixel of the array satisfies [P]. *)
Definition all_px (P : pixel -> Prop) (img : ndarray) : Prop :=
  Forall (Forall P) (rows img).

(** ** Sample inputs

    A small two-view record, as the script at the end of the file builds
    one from camera images. *)

Definition sample_img : ndarray :=
  Ndarray float32 [[(10, 20, 30)%Q; (40, 50, 60)%Q]].

Definition sample_record : gmap string pyval :=
  {["img" := VImgs [sample_img; sample_img]]}.

(** The same record with a view left as bytes. *)
Definition sample_uint8 : ndarray :=
  Ndarray uint8 [[(10, 20, 30)%Q; (40, 50, 60)%Q]].

Definition sample_record_uint8 : gmap string pyval :=
  {["img" := VImgs [sample_img; sample_uint8]]}.

(** A generator whose every sample is the same number. *)
Definition constant_rng (u : Q) : rng := Rng (fun _ => u) 0.

(** A one-pixel HSV array and the default distorter. *)
Definition sample_hsv : ndarray := Ndarray float32 [[(350, 1, 1)%Q]].

Definition default_distorter : PhotoMetricDistortionMultiViewImage.t :=
  PhotoMetricDistortionMultiViewImage.__init__ 32 (4 # 5, 6 # 5) (4 # 5, 6 # 5) 18 true.

(** An image of 5 rows of 9 black pixels, and an interpolation that
    paints every pixel black. *)
Definition sample_5x9 : ndarray :=
  Ndarray float32 (replicate 5 (replicate 9 (0, 0, 0)%Q)).

Definition black (img : ndarray) (h w r c : nat) : pixel := (0, 0, 0)%Q.

(** A record with the calibration of its one camera (focal length 1200),
    a rescaler that refers focal lengths to 900, and one that draws its
    ratio between 0.8 and 1.2. *)
Definition sample_record_focal : gmap string pyval :=
  <["metas" := VMetas [[[1200; 0; 800]; [0; 1200; 450]; [0; 0; 1]]%Q]]>
    {["img" := VImgs [sample_5x9]]}.

Definition focal_rescaler : RandomScaleImageMultiViewImage.t :=
  {| RandomScaleImageMultiViewImage.scales := [1 # 2];
     RandomScaleImageMultiViewImage.ref_focal_len := Some 900%Q;
     RandomScaleImageMultiViewImage.random_scale := None;
     RandomScaleImageMultiViewImage.pad_scale_rate := [1 # 2; 1 # 2] |}.

Definition random_rescaler : RandomScaleImageMultiViewImage.t :=
  {| RandomScaleImageMultiViewImage.scales := [1 # 2];
     RandomScaleImageMultiViewImage.ref_focal_len := None;
     RandomScaleImageMultiViewImage.random_scale := Some [4 # 5; 6 # 5];
     RandomScaleImageMultiViewImage.pad_scale_rate := [1 # 2; 1 # 2] |}.

(** ** The record a padder returns, key by key *)

(** The value a call of the padder leaves under [key], every image
    being padded by [f]: the two parameters of the mode are recorded,
    the image lists are padded where the record has them, and every
    other key keeps its value. *)
Definition pad_lookup (self : PadMultiViewImage.t) (f : ndarray -> ndarray)
    (results : gmap string pyval) (key : string) : option pyval :=
  if bool_decide (key = "pad_fixed_size")
  then Some (PadMultiViewImage.opt_size (PadMultiViewImage.size self))
  else if bool_decide (key = "pad_size_divisor")
  then Some (PadMultiViewImage.opt_int (PadMultiViewImage.size_divisor self))
  else if bool_decide (key ∈ image_keys)
  then match results !! key with
       | Some (VImgs l) => Some (VImgs (map f l))
       | o => o
       end
  else results !! key.

(** The padding of one image in each mode of a padder. *)
Definition pad_one (self : PadMultiViewImage.t) (img : ndarray) : ndarray :=
  match PadMultiViewImage.size self, PadMultiViewImage.size_divisor self with
  | Some sz, _ => mmcv.impad img sz (PadMultiViewImage.pad_val self)
  | None, Some d =>
      mmcv.impad img
        (Qceiling (inject_Z (Z.of_nat (shape0 img)) / inject_Z d) * d,
         Qceiling (inject_Z (Z.of_nat (shape1 img)) / inject_Z d) * d)
        (PadMultiViewImage.pad_val self)
  | None, None => img
  end.

(** ** The arguments of the rescaler *)

(** The first assertion of the constructor of the rescaler holds: a
    random range, when given, has two entries and comes without a
    reference focal length. *)
Definition random_scale_ok (ref_focal_len : option Q) (random_scale : option (list Q))
  : Prop :=
  match random_scale with
  | Some rs => length rs = 2%nat /\ ref_focal_len = None
  | None => True
  end.

(** ** Further sample inputs *)

(** The sample record with a second image list and a key of another
    stage. *)
Definition sample_record_extra : gmap string pyval :=
  <["extra_img" := VImgs [sample_img]]> (<["flip" := VBool true]> sample_record).

(** The padder for 2 rows of 3 pixels, built with a divisor as well. *)
Definition sample_padder : PadMultiViewImage.t :=
  {| PadMultiViewImage.size := Some (2, 3);
     PadMultiViewImage.size_divisor := None;
     PadMultiViewImage.pad_val := 0 |}.

(** Two views and the calibration of one camera only. *)
Definition sample_record_two_views : gmap string pyval :=
  <["metas" := VMetas [[[1200; 0; 800]; [0; 1200; 450]; [0; 0; 1]]%Q]]>
    {["img" := VImgs [sample_5x9; sample_5x9]]}.

(** The plain rescaler to half the size. *)
Definition half_rescaler : RandomScaleImageMultiViewImage.t :=
  {| RandomScaleImageMultiViewImage.scales := [1 # 2];
     RandomScaleImageMultiViewImage.ref_focal_len := None;
     RandomScaleImageMultiViewImage.random_scale := None;
     RandomScaleImageMultiViewImage.pad_scale_rate := [1 # 2; 1 # 2] |}.

(** * Properties *)

(** ** Results and comprehensions *)

Lemma comprehension_total {A B : Type} (f : A -> result B) (g : A -> B) (l : list A) :
  (forall x, x ∈ l -> f x = Ok (g x)) ->
  comprehension f l = Ok (map g l).
Proof.
  induction l as [|x l IH]; intros Hf; simpl; [done|].
  rewrite Hf by apply list_elem_of_here.
  simpl. rewrite IH; [done|].
  intros y Hy. apply Hf. by apply list_elem_of_further.
Qed.

Lemma get_imgs_Some (results : gmap string pyval) key imgs :
  results !! key = Some (VImgs imgs) -> get_imgs results key = Ok imgs.
Proof. intros H. unfold get_imgs. by rewrite H. Qed.

Lemma has_key_true (results : gmap string pyval) key v :
  results !! key = Some v -> has_key results key = true.
Proof. intros H. unfold has_key. apply bool_decide_eq_true. by exists v. Qed.

Lemma has_key_false (results : gmap string pyval) key :
  results !! key = None -> has_key results key = false.
Proof.
  intros H. unfold has_key. apply bool_decide_eq_false.
  rewrite H. by intros [? ?].
Qed.

(** ** PadMultiViewImage: construction *)

Lemma pad_init_size (sz : Z * Z) (size_divisor : option Z) (pad_val : Q) :
  PadMultiViewImage.__init__ (Some sz) size_divisor pad_val
  = Ok {| PadMultiViewImage.size := Some sz;
          PadMultiViewImage.size_divisor := None;
          PadMultiViewImage.pad_val := pad_val |}.
Proof. by destruct size_divisor. Qed.

Lemma pad_init_divisor (d : Z) (pad_val : Q) :
  PadMultiViewImage.__init__ None (Some d) pad_val
  = Ok {| PadMultiViewImage.size := None;
          PadMultiViewImage.size_divisor := Some d;
          PadMultiViewImage.pad_val := pad_val |}.
Proof. done. Qed.

(** C2, as the code has it: the constructor raises exactly when neither
    a fixed size nor a divisor is given.  With a fixed size it succeeds
    whatever the divisor, which is dropped; with a divisor alone it
    succeeds and keeps it. *)
Theorem pad_init_raises_iff_neither (size : option (Z * Z)) (size_divisor : option Z)
    (pad_val : Q) :
  (PadMultiViewImage.__init__ size size_divisor pad_val = Raise AssertionError
   <-> size = None /\ size_divisor = None)
  /\ (forall sz, size = Some sz ->
        PadMultiViewImage.__init__ size size_divisor pad_val
        = Ok {| PadMultiViewImage.size := Some sz;
                PadMultiViewImage.size_divisor := None;
                PadMultiViewImage.pad_val := pad_val |})
  /\ (forall d, size = None -> size_divisor = Some d ->
        PadMultiViewImage.__init__ size size_divisor pad_val
        = Ok {| PadMultiViewImage.size := None;
                PadMultiViewImage.size_divisor := Some d;
                PadMultiViewImage.pad_val := pad_val |}).
Proof.
  split; [|split].
  - destruct size as [sz|], size_divisor as [d|]; cbn; split;
      try discriminate; try (intros [? ?]; discriminate); done.
  - intros sz ->. apply pad_init_size.
  - intros d -> ->. apply pad_init_divisor.
Qed.

(** C2, the claim as stated fails: with a fixed size and a divisor both
    given, the constructor does not raise. *)
Lemma pad_init_both_given_succeeds :
  PadMultiViewImage.__init__ (Some (900, 1600)) (Some 32) 0
  = Ok {| PadMultiViewImage.size := Some (900, 1600);
          PadMultiViewImage.size_divisor := None;
          PadMultiViewImage.pad_val := 0 |}
  /\ PadMultiViewImage.__init__ (Some (900, 1600)) (Some 32) 0 <> Raise AssertionError.
Proof. split; [reflexivity | discriminate]. Qed.

(** ** Padding to a fixed shape *)

Lemma has_shape_rows img h w :
  has_shape img h w ->
  length (rows img) = h
  /\ (forall row, row ∈ rows img -> length row = w /\ shape1 img = w).
Proof.
  intros [Hh Hw]. split; [done|].
  intros row Hin. rewrite Forall_forall in Hw. split; [by apply Hw|].
  unfold shape1. destruct (rows img) as [|r rs]; [by apply elem_of_nil in Hin|].
  simpl. apply Hw. apply list_elem_of_here.
Qed.

Lemma shape1_le img h w W :
  has_shape img h w -> (w <= W)%nat -> (shape1 img <= W)%nat.
Proof.
  intros Hs HwW. apply has_shape_rows in Hs as [_ Hw].
  unfold shape1 in *. destruct (rows img) as [|r rs]; simpl; [lia|].
  destruct (Hw r) as [_ E]; [apply list_elem_of_here|]. simpl in E. by rewrite E.
Qed.

(** What [impad] returns for an image that fits into the target. *)
Lemma impad_fits img (h w H W : nat) (v : Q) :
  has_shape img h w -> (h <= H)%nat -> (w <= W)%nat ->
  dtype (mmcv.impad img (Z.of_nat H, Z.of_nat W) v) = dtype img
  /\ has_shape (mmcv.impad img (Z.of_nat H, Z.of_nat W) v) H W
  /\ (forall r c p, at_px img r c = Some p ->
        at_px (mmcv.impad img (Z.of_nat H, Z.of_nat W) v) r c = Some p)
  /\ (forall r c, (r < H)%nat -> (c < W)%nat -> (h <= r \/ w <= c)%nat ->
        at_px (mmcv.impad img (Z.of_nat H, Z.of_nat W) v) r c = Some (v, v, v)).
Proof.
  intros Hs HhH HwW.
  pose proof (shape1_le _ _ _ _ Hs HwW) as Hle1.
  apply has_shape_rows in Hs as [Hh Hw].
  unfold mmcv.impad, has_shape, at_px, shape0. simpl.
  replace (Z.to_nat (Z.max (Z.of_nat W - Z.of_nat (shape1 img)) 0))
    with (W - shape1 img)%nat by lia.
  replace (Z.to_nat (Z.max (Z.of_nat H - Z.of_nat (length (rows img))) 0))
    with (H - h)%nat by lia.
  assert (Hroww : forall row, row ∈ rows img -> (length row + (W - shape1 img) = W)%nat).
  { intros row Hin. destruct (Hw _ Hin) as [E1 E2]. rewrite E1, E2. lia. }
  split; [done|]. split; [split|split].
  - rewrite length_app, length_map, length_replicate. lia.
  - apply Forall_app. split.
    + rewrite Forall_forall. intros row' Hin.
      apply list_elem_of_fmap in Hin as (row & -> & Hin).
      rewrite length_app, length_replicate. by apply Hroww.
    + rewrite Forall_forall. intros row' Hin.
      apply elem_of_replicate in Hin as [-> _].
      rewrite length_replicate. lia.
  - intros r c p.
    destruct (rows img !! r) as [row|] eqn:Er; simpl; [|done].
    intros Hc.
    rewrite lookup_app_l by (rewrite length_map; by eapply lookup_lt_Some).
    rewrite list_lookup_fmap, Er. simpl.
    by apply lookup_app_l_Some.
  - intros r c Hr Hc Hout.
    destruct (rows img !! r) as [row|] eqn:Er.
    + rewrite lookup_app_l by (rewrite length_map; by eapply lookup_lt_Some).
      rewrite list_lookup_fmap, Er. simpl.
      assert (Hin : row ∈ rows img) by (by eapply list_elem_of_lookup_2).
      pose proof (Hroww _ Hin) as Hlen.
      destruct (Hw _ Hin) as [E1 _].
      apply lookup_lt_Some in Er.
      rewrite lookup_app_r by lia.
      apply lookup_replicate_2. lia.
    + apply lookup_ge_None in Er.
      rewrite lookup_app_r by (rewrite length_map; lia).
      rewrite length_map.
      rewrite (lookup_replicate_2 _ _ (r - length (rows img))) by lia.
      simpl. apply lookup_replicate_2. lia.
Qed.

Lemma at_px_None_outside img h w r c :
  has_shape img h w -> at_px img r c = None -> (h <= r \/ w <= c)%nat.
Proof.
  intros Hs Hnone. apply has_shape_rows in Hs as [Hh Hw].
  unfold at_px in Hnone.
  destruct (rows img !! r) as [row|] eqn:Er; simpl in Hnone.
  - right. destruct (Hw row) as [E _]; [by eapply list_elem_of_lookup_2|].
    apply lookup_ge_None in Hnone. lia.
  - left. apply lookup_ge_None in Er. lia.
Qed.

Lemma impad_padded img (h w : nat) (Hz Wz : Z) (v : Q) :
  has_shape img h w -> Z.of_nat h <= Hz -> Z.of_nat w <= Wz ->
  padded (Z.to_nat Hz) (Z.to_nat Wz) v img (mmcv.impad img (Hz, Wz) v).
Proof.
  intros Hs Hh Hw.
  destruct (impad_fits img h w (Z.to_nat Hz) (Z.to_nat Wz) v Hs) as (_ & H1 & H2 & H3);
    [lia | lia |].
  rewrite !Z2Nat.id in * by lia.
  split; [done|]. split; [done|].
  intros r c Hr Hc Hnone. apply H3; [done | done |].
  by eapply at_px_None_outside.
Qed.

(** The record a call returns when every list is padded image by image
    with [f]. *)
Lemma pad_call_map (self : PadMultiViewImage.t) (f : ndarray -> ndarray)
    (results : gmap string pyval) :
  (forall imgs, PadMultiViewImage.pad_list self imgs = Ok (map f imgs)) ->
  pad_input results ->
  exists results',
    PadMultiViewImage.__call__ self results = Ok results'
    /\ forall key imgs, key ∈ image_keys ->
         results !! key = Some (VImgs imgs) ->
         results' !! key = Some (VImgs (map f imgs)).
Proof.
  intros Hpad ([imgs Himg] & Hextra & Hori).
  unfold PadMultiViewImage.__call__, PadMultiViewImage._pad_img.
  assert (Hmode : forall (A : Type) (a b : result A),
    match PadMultiViewImage.size self, PadMultiViewImage.size_divisor self with
    | None, None => a
    | _, _ => b
    end = b).
  { intros A a b. specialize (Hpad []). unfold PadMultiViewImage.pad_list in Hpad.
    destruct (PadMultiViewImage.size self), (PadMultiViewImage.size_divisor self);
      done. }
  rewrite Hmode.
  rewrite (get_imgs_Some _ _ _ Himg). simpl. rewrite Hpad. simpl.
  assert (Hopt : forall key, image_field results key ->
    exists o, PadMultiViewImage.pad_optional self results key = Ok o
      /\ match o with
         | Some l => exists imgs, results !! key = Some (VImgs imgs) /\ l = map f imgs
         | None => results !! key = None
         end).
  { intros key [Hnone|[l Hl]]; unfold PadMultiViewImage.pad_optional.
    - rewrite (has_key_false _ _ Hnone). by exists None.
    - rewrite (has_key_true _ _ _ Hl), (get_imgs_Some _ _ _ Hl). simpl.
      rewrite Hpad. simpl. exists (Some (map f l)). eauto. }
  destruct (Hopt _ Hextra) as (oe & -> & Hoe).
  destruct (Hopt _ Hori) as (oo & -> & Hoo). simpl.
  eexists. split; [done|].
  intros key l Hkey Hl.
  unfold image_keys in Hkey.
  apply elem_of_cons in Hkey as [->|Hkey];
    [|apply elem_of_cons in Hkey as [->|Hkey];
      [|apply list_elem_of_singleton in Hkey as ->]].
  - destruct oo as [lo|], oe as [le|]; simpl; simplify_map_eq; done.
  - destruct oe as [le|]; [|congruence].
    destruct Hoe as (l' & Hl' & ->). assert (l' = l) as -> by congruence.
    destruct oo as [lo|]; simpl; simplify_map_eq; done.
  - destruct oo as [lo|]; [|congruence].
    destruct Hoo as (l' & Hl' & ->). assert (l' = l) as -> by congruence.
    simpl. by simplify_map_eq.
Qed.

(** The example of the specification: an image of 886 rows of 1600
    pixels padded to (900, 1600) has 900 rows of 1600 pixels, and its
    bottom 14 rows hold the fill value. *)
Lemma impad_886_to_900 (img : ndarray) (v : Q) :
  has_shape img 886 1600 ->
  has_shape (mmcv.impad img (900, 1600) v) 900 1600
  /\ forall r c, (886 <= r < 900)%nat -> (c < 1600)%nat ->
       at_px (mmcv.impad img (900, 1600) v) r c = Some (v, v, v).
Proof.
  intros Hs.
  destruct (impad_fits img 886 1600 900 1600 v Hs) as (_ & Hshape & _ & Hfill);
    [lia | lia |].
  split; [exact Hshape|].
  intros r c Hr Hc. apply Hfill; lia.
Qed.



(** ** Padding to a multiple *)

Lemma Qceiling_div_bounds (n d : Z) :
  0 < d ->
  (Qceiling (inject_Z n / inject_Z d) - 1) * d < n
  /\ n <= Qceiling (inject_Z n / inject_Z d) * d.
Proof.
  intros Hd.
  set (x := (inject_Z n / inject_Z d)%Q).
  assert (Hdq : (0 < inject_Z d)%Q) by (change 0%Q with (inject_Z 0); by rewrite <- Zlt_Qlt).
  assert (Hx : (x * inject_Z d == inject_Z n)%Q).
  { unfold x. rewrite Qmult_comm. apply Qmult_div_r. intros E. rewrite E in Hdq. by apply Qlt_irrefl in Hdq. }
  pose proof (Qle_ceiling x) as Hup.
  pose proof (Qceiling_lt x) as Hlo.
  split.
  - rewrite Zlt_Qlt. rewrite inject_Z_mult, <- Hx.
    by apply Qmult_lt_compat_r.
  - rewrite Zle_Qle. rewrite inject_Z_mult, <- Hx.
    apply Qmult_le_compat_r; [done|]. by apply Qlt_le_weak.
Qed.

Lemma ceil_smallest_multiple (n d : Z) :
  0 < d ->
  smallest_multiple d n (Qceiling (inject_Z n / inject_Z d) * d).
Proof.
  intros Hd. destruct (Qceiling_div_bounds n d Hd) as [Hlo Hup].
  set (k := Qceiling (inject_Z n / inject_Z d)) in *.
  split; [|split].
  - exists k. lia.
  - done.
  - intros m' [q ->] Hq.
    assert (k - 1 < q) by (apply (Z.mul_lt_mono_pos_r d); lia).
    apply Z.mul_le_mono_nonneg_r; lia.
Qed.

Lemma impad_to_multiple_padded img (h w : nat) (d : Z) (v : Q) :
  0 < d -> has_shape img h w ->
  exists out,
    mmcv.impad_to_multiple img d v = Ok out
    /\ padded_to_multiple d v img out.
Proof.
  intros Hd Hs. unfold mmcv.impad_to_multiple.
  destruct (Z.eqb_spec d 0) as [->|_]; [lia|].
  eexists. split; [done|].
  exists h, w. do 2 eexists. split; [done|]. split; [done|]. split; [done|].
  pose proof (ceil_smallest_multiple (Z.of_nat h) d Hd) as Hmh.
  pose proof (ceil_smallest_multiple (Z.of_nat w) d Hd) as Hmw.
  split; [done|]. split; [done|].
  pose proof Hs as [Hh Hrows]. unfold shape0. rewrite Hh.
  destruct (rows img) as [|row rs] eqn:Erows.
  - (* no row at all: nothing to pad on the right *)
    simpl in Hh. subst h.
    pose proof (ceil_smallest_multiple (Z.of_nat (shape1 img)) d Hd) as Hm1.
    remember (Qceiling (inject_Z (Z.of_nat 0) / inject_Z d) * d) as mh eqn:Emh.
    remember (Qceiling (inject_Z (Z.of_nat (shape1 img)) / inject_Z d) * d) as m1 eqn:Em1.
    assert (Hmh0 : mh = 0).
    { destruct Hmh as (_ & Hge & Hmin).
      specialize (Hmin 0 (Z.divide_0_r d)). lia. }
    assert (Hs0 : has_shape img 0 (shape1 img)).
    { split; rewrite Erows; [done | constructor]. }
    destruct (impad_padded img 0 (shape1 img) mh m1 v Hs0) as ([Hlen _] & Hin & _);
      [apply Hmh | apply Hm1 |].
    clear Emh. subst mh. change (Z.to_nat 0) with 0%nat in *.
    apply length_zero_iff_nil in Hlen.
    split; [split|split].
    + by rewrite Hlen.
    + rewrite Hlen. constructor.
    + done.
    + intros r c Hr. lia.
  - assert (E1 : shape1 img = w).
    { unfold shape1. rewrite Erows. simpl. by inversion Hrows. }
    rewrite E1. rewrite <- Erows in *.
    apply (impad_padded img h w); [done | apply Hmh | apply Hmw].
Qed.

(** C6: a padder built with a divisor [d > 0] returns, for every
    rectangular image, an image whose height and width are
    [d * ceil(dim / d)], the smallest multiples of [d] that are at
    least the original dimensions; the original pixels keep their
    place and every other pixel holds the fill value.  This holds for
    the images under every image key of the record. *)
Theorem pad_to_multiple_smallest (d : Z) (pad_val : Q)
    (self : PadMultiViewImage.t) (results : gmap string pyval) :
  0 < d ->
  PadMultiViewImage.__init__ None (Some d) pad_val = Ok self ->
  pad_input results ->
  (forall key imgs img, key ∈ image_keys ->
     results !! key = Some (VImgs imgs) -> img ∈ imgs ->
     exists h w, has_shape img h w) ->
  exists results',
    PadMultiViewImage.__call__ self results = Ok results'
    /\ forall key imgs, key ∈ image_keys ->
         results !! key = Some (VImgs imgs) ->
         exists out,
           results' !! key = Some (VImgs out)
           /\ Forall2 (padded_to_multiple d pad_val) imgs out.
Proof.
  intros Hd Hinit Hin Hrect.
  rewrite pad_init_divisor in Hinit. injection Hinit as <-.
  set (f := fun img =>
    mmcv.impad img
      (Qceiling (inject_Z (Z.of_nat (shape0 img)) / inject_Z d) * d,
       Qceiling (inject_Z (Z.of_nat (shape1 img)) / inject_Z d) * d) pad_val).
  assert (Hf : forall img, mmcv.impad_to_multiple img d pad_val = Ok (f img)).
  { intros img. unfold mmcv.impad_to_multiple.
    destruct (Z.eqb_spec d 0) as [->|_]; [lia | done]. }
  edestruct (pad_call_map
               {| PadMultiViewImage.size := None;
                  PadMultiViewImage.size_divisor := Some d;
                  PadMultiViewImage.pad_val := pad_val |} f results)
    as (results' & Hcall & Hkeys); [|done|].
  { intros imgs. unfold PadMultiViewImage.pad_list. simpl.
    apply comprehension_total. intros img _. apply Hf. }
  exists results'. split; [done|].
  intros key imgs Hkey Hl. eexists. split; [by apply Hkeys|].
  apply Forall2_fmap_r, Forall_Forall2_diag, Forall_forall.
  intros img Himg.
  destruct (Hrect _ _ _ Hkey Hl Himg) as (h & w & Hs).
  destruct (impad_to_multiple_padded img h w d pad_val Hd Hs) as (out & Hout & Hp).
  rewrite Hf in Hout. by injection Hout as <-.
Qed.

(** ** The padder on the sample record *)

Lemma sample_record_pad_input : pad_input sample_record.
Proof.
  split; [by eexists|]. split; by left.
Qed.

Lemma sample_record_images key imgs img :
  key ∈ image_keys -> sample_record !! key = Some (VImgs imgs) -> img ∈ imgs ->
  has_shape img 1 2.
Proof.
  intros Hkey Hl Himg. unfold image_keys in Hkey.
  repeat (apply elem_of_cons in Hkey as [->|Hkey]); try by apply elem_of_nil in Hkey.
  - vm_compute in Hl. injection Hl as <-.
    repeat (apply elem_of_cons in Himg as [->|Himg]); try by apply elem_of_nil in Himg.
    all: split; [done | by repeat constructor].
  - vm_compute in Hl. discriminate.
  - vm_compute in Hl. discriminate.
Qed.


(** The sample record padded to multiples of 4. *)
Lemma pad_to_multiple_smallest_witness :
  exists self results',
    PadMultiViewImage.__init__ None (Some 4) 0 = Ok self
    /\ PadMultiViewImage.__call__ self sample_record = Ok results'
    /\ forall key imgs, key ∈ image_keys ->
         sample_record !! key = Some (VImgs imgs) ->
         exists out,
           results' !! key = Some (VImgs out)
           /\ Forall2 (padded_to_multiple 4 0) imgs out.
Proof.
  eexists.
  destruct (pad_to_multiple_smallest 4 0 _ sample_record ltac:(lia) eq_refl
              sample_record_pad_input) as (results' & Hcall & Hkeys).
  - intros key imgs img Hkey Hl Himg. exists 1%nat, 2%nat.
    by eapply sample_record_images.
  - exists results'. split; [reflexivity|]. split; [exact Hcall | exact Hkeys].
Defined.

(** ** Normalisation *)

Lemma imnormalize_at_px (self : NormalizeMultiviewImage.t) img r c :
  at_px (mmcv.imnormalize img (NormalizeMultiviewImage.mean self)
           (NormalizeMultiviewImage.std self) (NormalizeMultiviewImage.to_rgb self)) r c
  = normalize_px self <$> at_px img r c.
Proof.
  unfold at_px, mmcv.imnormalize. simpl.
  rewrite list_lookup_fmap.
  destruct (rows img !! r) as [row|]; simpl; [|done].
  rewrite list_lookup_fmap.
  destruct (row !! c) as [p|]; simpl; [|done].
  f_equal. unfold normalize_px, pdiv, psub.
  destruct (NormalizeMultiviewImage.to_rgb self), p as [[a b] c'],
    (NormalizeMultiviewImage.mean self) as [[ma mb] mc],
    (NormalizeMultiviewImage.std self) as [[sa sb] sc]; done.
Qed.

Lemma normalize_denormalize_px (mean std p : pixel) (to_rgb : bool) :
  nonzero_std std ->
  let denormalized :=
    let q := padd (pmul p std) mean in if to_rgb then swap_rb q else q in
  px_eq (pdiv (psub (if to_rgb then swap_rb denormalized else denormalized) mean) std) p.
Proof.
  destruct p as [[a b] c], mean as [[ma mb] mc], std as [[sa sb] sc].
  intros (Ha & Hb & Hc).
  destruct to_rgb; simpl; repeat split; field; done.
Qed.

Lemma normalize_denormalize (mean std : pixel) (to_rgb : bool) (y : ndarray) :
  nonzero_std std ->
  allclose (mmcv.imnormalize (mmcv.imdenormalize y mean std to_rgb) mean std to_rgb) y.
Proof.
  intros Hstd. unfold allclose, mmcv.imnormalize, mmcv.imdenormalize. simpl.
  apply Forall2_fmap_l, Forall2_fmap_l, Forall_Forall2_diag, Forall_forall.
  intros row _.
  apply Forall2_fmap_l, Forall2_fmap_l, Forall_Forall2_diag, Forall_forall.
  intros p _.
  simpl. by apply normalize_denormalize_px.
Qed.

(** C7: the normaliser stores, for every image, the array whose pixel at
    every coordinate is [(pixel - mean) / std] of the input pixel,
    channel by channel, after the reordering of the channels when
    [to_rgb] is set, and it records the configuration; with no zero
    deviation it undoes [denormalize]: on images obtained by
    denormalising arrays [ys] with the same mean, deviation and flag it
    gives back [ys], number for number. *)
Theorem normalize_formula_roundtrip (self : NormalizeMultiviewImage.t)
    (results : gmap string pyval) (imgs : list ndarray) :
  results !! "img" = Some (VImgs imgs) ->
  nonzero_std (NormalizeMultiviewImage.std self) ->
  exists results' out,
    NormalizeMultiviewImage.__call__ self results = Ok results'
    /\ results' !! "img" = Some (VImgs out)
    /\ results' !! "img_norm_cfg"
       = Some (VNormCfg (NormalizeMultiviewImage.mean self)
                 (NormalizeMultiviewImage.std self)
                 (NormalizeMultiviewImage.to_rgb self))
    /\ Forall2 (fun img o => forall r c,
                  at_px o r c = normalize_px self <$> at_px img r c) imgs out
    /\ forall ys,
         imgs = map (fun y => mmcv.imdenormalize y
                                (NormalizeMultiviewImage.mean self)
                                (NormalizeMultiviewImage.std self)
                                (NormalizeMultiviewImage.to_rgb self)) ys ->
         Forall2 allclose out ys.
Proof.
  intros Himg Hstd. unfold NormalizeMultiviewImage.__call__.
  rewrite (get_imgs_Some _ _ _ Himg). simpl.
  do 2 eexists. split; [done|].
  split; [by simplify_map_eq|]. split; [by simplify_map_eq|]. split.
  - apply Forall2_fmap_r, Forall_Forall2_diag, Forall_forall.
    intros img _ r c. apply imnormalize_at_px.
  - intros ys ->. rewrite map_map.
    apply Forall2_fmap_l, Forall_Forall2_diag, Forall_forall.
    intros y _. simpl. by apply normalize_denormalize.
Qed.

(** The sample record normalised with mean (1, 2, 3) and deviation
    (2, 4, 5), channels reordered. *)
Lemma normalize_formula_roundtrip_witness :
  exists results' out,
    NormalizeMultiviewImage.__call__
      (NormalizeMultiviewImage.__init__ (1, 2, 3)%Q (2, 4, 5)%Q true) sample_record
    = Ok results'
    /\ results' !! "img" = Some (VImgs out)
    /\ Forall2 (fun img o => forall r c,
         at_px o r c
         = normalize_px (NormalizeMultiviewImage.__init__ (1, 2, 3)%Q (2, 4, 5)%Q true)
             <$> at_px img r c) [sample_img; sample_img] out.
Proof.
  destruct (normalize_formula_roundtrip
              (NormalizeMultiviewImage.__init__ (1, 2, 3)%Q (2, 4, 5)%Q true)
              sample_record [sample_img; sample_img] eq_refl)
    as (results' & out & Hcall & Himg & _ & Hpx & _).
  - repeat split; discriminate.
  - exists results', out. split; [exact Hcall|]. split; [exact Himg | exact Hpx].
Defined.

(** ** Flipping *)

Lemma imflip_involutive (img : ndarray) :
  mmcv.imflip (mmcv.imflip img) = img.
Proof.
  destruct img as [dt rs]. unfold mmcv.imflip. simpl. f_equal.
  induction rs as [|row rs IH]; simpl; [done|].
  by rewrite rev_involutive, IH.
Qed.

Lemma imflip_at_px (img : ndarray) (h w r c : nat) :
  has_shape img h w -> (c < w)%nat ->
  at_px (mmcv.imflip img) r c = at_px img r (w - 1 - c).
Proof.
  intros Hs Hc. apply has_shape_rows in Hs as [_ Hw].
  unfold at_px, mmcv.imflip. simpl. rewrite list_lookup_fmap.
  destruct (rows img !! r) as [row|] eqn:Er; simpl; [|done].
  destruct (Hw row) as [E _]; [by eapply list_elem_of_lookup_2|].
  rewrite rev_alt. change (rev_append row []) with (reverse row).
  rewrite reverse_lookup by lia. f_equal. lia.
Qed.

(** C4: one call of the flipper reads one sample of the generator and
    takes one decision for all the views, "yes" exactly when the sample
    lies below the probability (a sample uniform on [[0, 1)] does so
    with that probability): the record it returns holds that decision
    under ['flip'], and under ['img'] either every image mirrored or the
    list it was given.  With probability 0 the decision is always "no",
    with probability 1 always "yes"; mirroring an image twice gives the
    image back. *)
Theorem random_flip_contract (self : RandomFlip.t) (results : gmap string pyval)
    (imgs : list ndarray) (g : rng) :
  results !! "img" = Some (VImgs imgs) ->
  unit_tape (tape g) ->
  exists (flip : bool) (results' : gmap string pyval),
    RandomFlip.__call__ self results g
    = Ok (results', Rng (tape g) (S (cursor g)))
    /\ (flip = true <-> (tape g (cursor g) < RandomFlip.prob self)%Q)
    /\ results' !! "flip" = Some (VBool flip)
    /\ results' !! "img"
       = Some (VImgs (if flip then map mmcv.imflip imgs else imgs))
    /\ ((RandomFlip.prob self == 0)%Q -> flip = false)
    /\ ((RandomFlip.prob self == 1)%Q -> flip = true)
    /\ (forall img, mmcv.imflip (mmcv.imflip img) = img).
Proof.
  intros Himg Hunit. destruct (Hunit (cursor g)) as [Hlo Hhi].
  unfold RandomFlip.__call__, random_random, next_sample.
  destruct (Qlt_le_dec (tape g (cursor g)) (RandomFlip.prob self)) as [Hlt|Hge].
  - exists true. rewrite (get_imgs_Some _ _ _ Himg). simpl.
    eexists. split; [done|]. split; [done|].
    split; [by simplify_map_eq|]. split; [by simplify_map_eq|].
    split; [|split; [done | apply imflip_involutive]].
    intros E. rewrite E in Hlt. exfalso. by eapply Qlt_not_le.
  - exists false. simpl. eexists. split; [done|].
    split.
    { split; [discriminate|]. intros Hlt. exfalso. by eapply Qlt_not_le. }
    split; [by simplify_map_eq|]. split; [by simplify_map_eq|].
    split; [done|]. split; [|apply imflip_involutive].
    intros E. rewrite E in Hge. exfalso. by eapply Qlt_not_le.
Qed.

(** The sample record through a flipper of probability 1/2, the
    generator giving 1/4. *)
Lemma random_flip_contract_witness :
  exists (flip : bool) (results' : gmap string pyval),
    RandomFlip.__call__ (RandomFlip.__init__ (1 # 2)) sample_record
      (Rng (fun _ => 1 # 4) 0)
    = Ok (results', Rng (fun _ => 1 # 4) 1)
    /\ (flip = true <-> ((1 # 4) < (1 # 2))%Q)
    /\ results' !! "flip" = Some (VBool flip)
    /\ results' !! "img"
       = Some (VImgs (if flip then map mmcv.imflip [sample_img; sample_img]
                      else [sample_img; sample_img])).
Proof.
  destruct (random_flip_contract (RandomFlip.__init__ (1 # 2)) sample_record
              [sample_img; sample_img] (Rng (fun _ => 1 # 4) 0) eq_refl)
    as (flip & results' & Hcall & Hdec & Hflip & Himg & _).
  - intros n. split; [discriminate | reflexivity].
  - exists flip, results'. split; [exact Hcall|]. split; [exact Hdec|].
    split; [exact Hflip | exact Himg].
Defined.

(** ** Photometric distortion *)

Lemma dims_map_px (f : pixel -> pixel) (img : ndarray) :
  dims (map_px f img) = dims img.
Proof.
  unfold dims, map_px. simpl. rewrite List.map_map.
  apply map_ext. intros row. apply length_map.
Qed.

Lemma dtype_map_px (f : pixel -> pixel) (img : ndarray) :
  dtype (map_px f img) = dtype img.
Proof. done. Qed.

Lemma dims_has_shape (img out : ndarray) (h w : nat) :
  dims out = dims img -> has_shape img h w -> has_shape out h w.
Proof.
  unfold dims, has_shape. intros E [Hh Hw]. split.
  - rewrite <- Hh, <- (length_map length (rows out)), E. apply length_map.
  - apply Forall_forall. intros row Hin.
    assert (Hl : length row ∈ map length (rows out)).
    { apply list_elem_of_fmap. by exists row. }
    rewrite E in Hl. apply list_elem_of_fmap in Hl as (row' & -> & Hin').
    rewrite Forall_forall in Hw. by apply Hw.
Qed.

Lemma same_layout_refl img : same_layout img img.
Proof. done. Qed.

Lemma same_layout_map_px f img out :
  same_layout img out -> same_layout img (map_px f out).
Proof.
  intros [Hd Hs]. split; [done|]. by rewrite dims_map_px.
Qed.

Section Colour.

Variables bgr2hsv_px hsv2bgr_px : pixel -> pixel.

Lemma random_contrast_layout self img out g :
  same_layout img out ->
  same_layout img (fst (PhotoMetricDistortionMultiViewImage.random_contrast self out g)).
Proof.
  intros H. unfold PhotoMetricDistortionMultiViewImage.random_contrast.
  destruct (random_randint2 g) as [[] g1]; [|done].
  destruct (random_uniform _ _ g1) as [alpha g2]. simpl.
  by apply same_layout_map_px.
Qed.

Lemma distort_layout self img g :
  same_layout img
    (fst (PhotoMetricDistortionMultiViewImage.distort bgr2hsv_px hsv2bgr_px self img g)).
Proof.
  unfold PhotoMetricDistortionMultiViewImage.distort.
  repeat match goal with
  | |- context [random_randint2 ?g] => destruct (random_randint2 g) as [[] ?]
  | |- context [random_uniform ?a ?b ?g] => destruct (random_uniform a b g) as [? ?]
  | |- context [random_permutation3 ?g] => destruct (random_permutation3 g) as [? ?]
  | |- context [PhotoMetricDistortionMultiViewImage.random_contrast ?s ?i ?g] =>
      let H := fresh "Hc" in
      pose proof (fun H => random_contrast_layout s img i g H) as H;
      destruct (PhotoMetricDistortionMultiViewImage.random_contrast s i g) as [? ?];
      simpl in H
  | |- context [PhotoMetricDistortionMultiViewImage.use_swap_channel ?s] =>
      destruct (PhotoMetricDistortionMultiViewImage.use_swap_channel s)
  end; simpl.
  all: unfold PhotoMetricDistortionMultiViewImage.hsv2bgr,
         PhotoMetricDistortionMultiViewImage.bgr2hsv,
         PhotoMetricDistortionMultiViewImage.random_hue,
         PhotoMetricDistortionMultiViewImage.hue_wrap_low,
         PhotoMetricDistortionMultiViewImage.hue_wrap_high,
         PhotoMetricDistortionMultiViewImage.hue_add in *.
  all: repeat first
         [ apply same_layout_refl
         | apply same_layout_map_px
         | match goal with H : _ -> same_layout ?i ?x |- same_layout ?i ?x => apply H end ].
Qed.

Lemma distort_all_float32 self imgs g :
  Forall (fun img => dtype img = float32) imgs ->
  exists out g',
    PhotoMetricDistortionMultiViewImage.distort_all bgr2hsv_px hsv2bgr_px self imgs g
    = Ok (out, g')
    /\ Forall2 same_layout imgs out.
Proof.
  intros Hall. revert g.
  induction Hall as [|img imgs Hdt _ IH]; intros g; simpl.
  - by exists [], g.
  - rewrite Hdt. simpl.
    pose proof (distort_layout self img g) as Hl.
    destruct (PhotoMetricDistortionMultiViewImage.distort _ _ self img g) as [img' g1].
    destruct (IH g1) as (out & g' & -> & Hout). simpl.
    exists (img' :: out), g'. split; [done|]. by constructor.
Qed.

Lemma distort_all_raises self imgs g :
  Exists (fun img => dtype img <> float32) imgs ->
  PhotoMetricDistortionMultiViewImage.distort_all bgr2hsv_px hsv2bgr_px self imgs g
  = Raise AssertionError.
Proof.
  intros Hex. revert g.
  induction imgs as [|img imgs IH]; intros g; [by apply Exists_nil in Hex|].
  simpl. destruct (dtype img) eqn:Hdt; simpl; try done.
  apply Exists_cons in Hex as [Hbad|Hex]; [by rewrite Hdt in Hbad|].
  destruct (PhotoMetricDistortionMultiViewImage.distort _ _ self img g) as [img' g1].
  by rewrite (IH Hex).
Qed.

End Colour.

(** C8: the call checks the element type of every image it reaches; it
    raises the assertion error as soon as the list under ['img'] holds
    an image that is not [float32], and when every image is [float32]
    no check fires and the call returns. *)
Theorem photometric_requires_float32 (bgr2hsv_px hsv2bgr_px : pixel -> pixel)
    (self : PhotoMetricDistortionMultiViewImage.t)
    (results : gmap string pyval) (imgs : list ndarray) (g : rng) :
  results !! "img" = Some (VImgs imgs) ->
  ((exists img, img ∈ imgs /\ dtype img <> float32) ->
     PhotoMetricDistortionMultiViewImage.__call__ bgr2hsv_px hsv2bgr_px self results g
     = Raise AssertionError)
  /\ ((forall img, img ∈ imgs -> dtype img = float32) ->
      exists out,
        PhotoMetricDistortionMultiViewImage.__call__ bgr2hsv_px hsv2bgr_px self results g
        = Ok out).
Proof.
  intros Himg. unfold PhotoMetricDistortionMultiViewImage.__call__.
  rewrite (get_imgs_Some _ _ _ Himg). simpl. split.
  - intros Hbad. rewrite distort_all_raises; [done|].
    apply Exists_exists. destruct Hbad as (img & Hin & Hdt). by exists img.
  - intros Hall. apply Forall_forall in Hall.
    destruct (distort_all_float32 bgr2hsv_px hsv2bgr_px self imgs g Hall)
      as (out & g' & -> & _).
    simpl. by eexists.
Qed.

(** C9: whatever the samples of the generator, on [float32] images the
    call returns a record whose ['img'] list has one image for every
    input image, in order, each with the element type, the height and
    the width of its input (the three channels are those of the pixel
    type). *)
Theorem photometric_preserves_shape (bgr2hsv_px hsv2bgr_px : pixel -> pixel)
    (self : PhotoMetricDistortionMultiViewImage.t)
    (results : gmap string pyval) (imgs : list ndarray) (g : rng) :
  results !! "img" = Some (VImgs imgs) ->
  (forall img, img ∈ imgs -> dtype img = float32) ->
  exists results' out g',
    PhotoMetricDistortionMultiViewImage.__call__ bgr2hsv_px hsv2bgr_px self results g
    = Ok (results', g')
    /\ results' !! "img" = Some (VImgs out)
    /\ length out = length imgs
    /\ Forall2 (fun img o =>
                  dtype o = float32 /\ dims o = dims img
                  /\ forall h w, has_shape img h w -> has_shape o h w)
         imgs out.
Proof.
  intros Himg Hall. unfold PhotoMetricDistortionMultiViewImage.__call__.
  rewrite (get_imgs_Some _ _ _ Himg). simpl.
  pose proof Hall as Hall'. apply Forall_forall in Hall'.
  destruct (distort_all_float32 bgr2hsv_px hsv2bgr_px self imgs g Hall')
    as (out & g' & -> & Hlay).
  simpl. do 3 eexists. split; [done|]. split; [by simplify_map_eq|].
  split; [symmetry; by eapply Forall2_length|].
  apply Forall2_same_length_lookup. split; [by eapply Forall2_length|].
  intros i img o Hi Ho.
  pose proof (Forall2_lookup_lr _ _ _ _ _ _ Hlay Hi Ho) as [Hd Hs].
  split; [|split; [done|]].
  - rewrite Hd. apply Hall. by eapply list_elem_of_lookup_2.
  - intros h w. by apply dims_has_shape.
Qed.

(** The default distorter raises on the record with a view left as
    bytes and returns on the sample record. *)
Lemma photometric_requires_float32_witness :
  PhotoMetricDistortionMultiViewImage.__call__ swap_rb swap_rb
    (PhotoMetricDistortionMultiViewImage.__init__ 32 (4 # 5, 6 # 5) (4 # 5, 6 # 5) 18 true)
    sample_record_uint8 (constant_rng (3 # 4))
  = Raise AssertionError
  /\ exists out,
       PhotoMetricDistortionMultiViewImage.__call__ swap_rb swap_rb
         (PhotoMetricDistortionMultiViewImage.__init__ 32 (4 # 5, 6 # 5) (4 # 5, 6 # 5) 18 true)
         sample_record (constant_rng (3 # 4))
       = Ok out.
Proof.
  split.
  - apply (photometric_requires_float32 swap_rb swap_rb _ sample_record_uint8
             [sample_img; sample_uint8] _ eq_refl).
    exists sample_uint8. split; [|discriminate].
    apply list_elem_of_further, list_elem_of_here.
  - apply (photometric_requires_float32 swap_rb swap_rb _ sample_record
             [sample_img; sample_img] _ eq_refl).
    intros img Hin.
    repeat (apply elem_of_cons in Hin as [->|Hin]); try reflexivity.
    by apply elem_of_nil in Hin.
Defined.

(** The default distorter on the sample record, every sample of the
    generator being 3/4. *)
Lemma photometric_preserves_shape_witness :
  exists results' out g',
    PhotoMetricDistortionMultiViewImage.__call__ swap_rb swap_rb
      (PhotoMetricDistortionMultiViewImage.__init__ 32 (4 # 5, 6 # 5) (4 # 5, 6 # 5) 18 true)
      sample_record (constant_rng (3 # 4))
    = Ok (results', g')
    /\ results' !! "img" = Some (VImgs out)
    /\ length out = length [sample_img; sample_img].
Proof.
  destruct (photometric_preserves_shape swap_rb swap_rb
              (PhotoMetricDistortionMultiViewImage.__init__ 32 (4 # 5, 6 # 5) (4 # 5, 6 # 5) 18 true)
              sample_record [sample_img; sample_img] (constant_rng (3 # 4)) eq_refl)
    as (results' & out & g' & Hcall & Himg & Hlen & _).
  - intros img Hin.
    repeat (apply elem_of_cons in Hin as [->|Hin]); try reflexivity.
    by apply elem_of_nil in Hin.
  - exists results', out, g'. split; [exact Hcall|]. split; [exact Himg | exact Hlen].
Defined.

(** ** The hue step *)

Lemma all_px_map_px (P R : pixel -> Prop) (f : pixel -> pixel) (img : ndarray) :
  (forall p, P p -> R (f p)) -> all_px P img -> all_px R (map_px f img).
Proof.
  intros Hf Hall. unfold all_px, map_px in *. simpl.
  apply Forall_fmap. eapply Forall_impl; [exact Hall|].
  intros row Hrow. apply Forall_fmap. eapply Forall_impl; [exact Hrow|].
  intros p Hp. by apply Hf.
Qed.

(** The offset drawn by [random.uniform(-delta, delta)]. *)
Lemma random_uniform_symmetric (delta : Q) (g : rng) :
  (0 <= delta)%Q ->
  unit_tape (tape g) ->
  (- delta <= fst (random_uniform (- delta) delta g))%Q
  /\ (fst (random_uniform (- delta) delta g) <= delta)%Q.
Proof.
  intros Hd Hunit. destruct (Hunit (cursor g)) as [Hlo Hhi].
  unfold random_uniform, next_sample. simpl.
  set (u := tape g (cursor g)) in *.
  assert (H0 : (0 <= (delta - - delta) * u)%Q).
  { apply Qmult_le_0_compat; [lra | done]. }
  assert (H1 : ((delta - - delta) * u <= (delta - - delta) * 1)%Q).
  { rewrite (Qmult_comm _ u), (Qmult_comm _ 1).
    apply Qmult_le_compat_r; [by apply Qlt_le_weak | lra]. }
  split; lra.
Qed.

(** The three passes of the hue step on one hue value. *)
Lemma hue_wrap_closed (h offset delta : Q) :
  (0 <= h)%Q -> (h < 360)%Q ->
  (- delta <= offset)%Q -> (offset <= delta)%Q -> (delta <= 180)%Q ->
  let h1 := (h + offset)%Q in
  let h2 := if Qlt_le_dec 360 h1 then (h1 - 360)%Q else h1 in
  let h3 := if Qlt_le_dec h2 0 then (h2 + 360)%Q else h2 in
  (0 <= h3)%Q /\ (h3 <= 360)%Q.
Proof.
  intros Hh0 Hh1 Ho0 Ho1 Hd. simpl.
  destruct (Qlt_le_dec 360 (h + offset)) as [Hhi|Hhi].
  - destruct (Qlt_le_dec (h + offset - 360) 0) as [Hlo|Hlo]; split; lra.
  - destruct (Qlt_le_dec (h + offset) 0) as [Hlo|Hlo]; split; lra.
Qed.

(** C3, as the code has it: with [hue_delta <= 180], the offset drawn
    for the hue step lies in [[-hue_delta, hue_delta]], and after the
    step every hue that was in [[0, 360)] lies in the closed interval
    [[0, 360]]: only values strictly above 360 are brought down, so 360
    itself is a possible result. *)
Theorem random_hue_closed_range (self : PhotoMetricDistortionMultiViewImage.t)
    (img : ndarray) (g : rng) :
  (0 <= PhotoMetricDistortionMultiViewImage.hue_delta self)%Q ->
  (PhotoMetricDistortionMultiViewImage.hue_delta self <= 180)%Q ->
  unit_tape (tape g) ->
  all_px (fun p => (0 <= hue p)%Q /\ (hue p < 360)%Q) img ->
  let offset :=
    fst (random_uniform (- PhotoMetricDistortionMultiViewImage.hue_delta self)
           (PhotoMetricDistortionMultiViewImage.hue_delta self) g) in
  (- PhotoMetricDistortionMultiViewImage.hue_delta self <= offset)%Q
  /\ (offset <= PhotoMetricDistortionMultiViewImage.hue_delta self)%Q
  /\ all_px (fun p => (0 <= hue p)%Q /\ (hue p <= 360)%Q)
       (PhotoMetricDistortionMultiViewImage.random_hue offset img).
Proof.
  intros Hd0 Hd Hu Hall offset.
  destruct (random_uniform_symmetric _ g Hd0 Hu) as [Ho0 Ho1].
  fold offset in Ho0, Ho1.
  split; [done|]. split; [done|].
  unfold PhotoMetricDistortionMultiViewImage.random_hue,
    PhotoMetricDistortionMultiViewImage.hue_wrap_low,
    PhotoMetricDistortionMultiViewImage.hue_wrap_high,
    PhotoMetricDistortionMultiViewImage.hue_add.
  set (d := PhotoMetricDistortionMultiViewImage.hue_delta self) in *.
  clearbody offset.
  apply (all_px_map_px
           (fun p => exists h, (0 <= h)%Q /\ (h < 360)%Q
              /\ hue p = (if Qlt_le_dec 360 (h + offset) then h + offset - 360
                          else h + offset)%Q)).
  { intros [[a b] c] (h & Hh0 & Hh1 & E). unfold hue in *. simpl in *. subst a.
    exact (hue_wrap_closed h offset d Hh0 Hh1 Ho0 Ho1 Hd). }
  apply (all_px_map_px
           (fun p => exists h, (0 <= h)%Q /\ (h < 360)%Q /\ hue p = (h + offset)%Q)).
  { intros [[a b] c] (h & Hh0 & Hh1 & E). unfold hue in *. simpl in *. subst a.
    by exists h. }
  apply (all_px_map_px (fun p => (0 <= hue p)%Q /\ (hue p < 360)%Q)); [|done].
  intros [[a b] c] [Hh0 Hh1]. unfold hue in *. simpl in *. by exists a.
Qed.

(** C3, the claim as stated fails: with the default [hue_delta] of 18
    the sample 7/9 of the generator gives the offset 10, and the hue
    350 is left at 360 by the step, outside the half-open interval. *)
Lemma random_hue_reaches_360 :
  let offset := fst (random_uniform (- 18) 18 (constant_rng (7 # 9))) in
  all_px (fun p => (0 <= hue p)%Q /\ (hue p < 360)%Q) sample_hsv
  /\ (offset == 10)%Q /\ (- 18 <= offset)%Q /\ (offset <= 18)%Q /\ (18 <= 180)%Q
  /\ all_px (fun p => (hue p == 360)%Q)
       (PhotoMetricDistortionMultiViewImage.random_hue offset sample_hsv)
  /\ ~ all_px (fun p => (0 <= hue p)%Q /\ (hue p < 360)%Q)
         (PhotoMetricDistortionMultiViewImage.random_hue offset sample_hsv).
Proof.
  simpl. split; [repeat constructor; discriminate|].
  split; [reflexivity|]. split; [discriminate|]. split; [discriminate|].
  split; [discriminate|]. split; [by repeat constructor|].
  intros Hall. unfold all_px in Hall. vm_compute in Hall.
  inversion Hall as [|row rs Hrow _]; subst.
  inversion Hrow as [|p ps [_ Hlt] _]; subst.
  vm_compute in Hlt. discriminate.
Qed.

(** The hue step of the default distorter on the one-pixel array. *)
Lemma random_hue_closed_range_witness :
  all_px (fun p => (0 <= hue p)%Q /\ (hue p <= 360)%Q)
    (PhotoMetricDistortionMultiViewImage.random_hue
       (fst (random_uniform (- 18) 18 (constant_rng (3 # 4)))) sample_hsv).
Proof.
  apply (random_hue_closed_range default_distorter sample_hsv (constant_rng (3 # 4))).
  - discriminate.
  - discriminate.
  - intros n. split; [discriminate | reflexivity].
  - repeat constructor; discriminate.
Defined.

(** ** Rescaling *)

Lemma imresize_has_shape interp (img : ndarray) (x y : Z) :
  has_shape (mmcv.imresize interp img (x, y)) (Z.to_nat y) (Z.to_nat x)
  /\ dtype (mmcv.imresize interp img (x, y)) = dtype img.
Proof.
  unfold mmcv.imresize, has_shape. simpl. split; [split|done].
  - by rewrite length_map, length_seq.
  - apply Forall_forall. intros row Hin.
    apply list_elem_of_fmap in Hin as (r & -> & _).
    by rewrite length_map, length_seq.
Qed.

Lemma truediv_nonzero (a b : Q) :
  ~ (b == 0)%Q -> truediv a b = Ok (a / b)%Q.
Proof.
  intros Hb. unfold truediv.
  destruct (Qeq_bool b 0) eqn:E; [|done].
  by apply Qeq_bool_eq in E.
Qed.

Lemma index_Some {A : Type} (l : list A) (i : nat) (x : A) :
  l !! i = Some x -> index l i = Ok x.
Proof. intros H. unfold index. by rewrite H. Qed.

Lemma ratios_nonzero (self : RandomScaleImageMultiViewImage.t) (k : nat) (p : Q)
    (rand_scales : list Q) :
  RandomScaleImageMultiViewImage.pad_scale_rate self !! k = Some p ->
  ~ (p == 0)%Q ->
  RandomScaleImageMultiViewImage.ratios self k rand_scales
  = Ok (map (fun scale => (scale / p)%Q) rand_scales).
Proof.
  intros Hk Hp. unfold RandomScaleImageMultiViewImage.ratios.
  apply comprehension_total. intros scale _.
  rewrite (index_Some _ _ _ Hk). simpl. by apply truediv_nonzero.
Qed.

(** The targets are read at the index of every image. *)
Lemma resize_targets_zip (imgs : list ndarray) (x_size y_size : list Z) (idx : nat) :
  (idx + length imgs <= length x_size)%nat ->
  (idx + length imgs <= length y_size)%nat ->
  RandomScaleImageMultiViewImage.resize_targets idx imgs x_size y_size
  = Ok (take (length imgs) (drop idx (zip x_size y_size))).
Proof.
  revert idx. induction imgs as [|img imgs IH]; intros idx Hx Hy; simpl; [done|].
  simpl in Hx, Hy.
  destruct (lookup_lt_is_Some_2 x_size idx) as [x Ex]; [lia|].
  destruct (lookup_lt_is_Some_2 y_size idx) as [y Ey]; [lia|].
  rewrite (index_Some _ _ _ Ex), (index_Some _ _ _ Ey). simpl.
  rewrite IH by lia. simpl. f_equal.
  assert (Ez : zip x_size y_size !! idx = Some (x, y)).
  { rewrite lookup_zip_with, Ex. simpl. by rewrite Ey. }
  by rewrite (drop_S _ _ _ Ez).
Qed.

(** ** Rounding to a double *)

Lemma py_round_comp (x y : Q) : (x == y)%Q -> py_round x = py_round y.
Proof.
  intros E. unfold py_round. rewrite (Qfloor_comp _ _ E).
  destruct (Qlt_le_dec (x - inject_Z (Qfloor y)) (1 # 2)) as [H1|H1],
           (Qlt_le_dec (y - inject_Z (Qfloor y)) (1 # 2)) as [H2|H2];
    try reflexivity; try (rewrite E in H1; lra).
  destruct (Qlt_le_dec (1 # 2) (x - inject_Z (Qfloor y))) as [H3|H3],
           (Qlt_le_dec (1 # 2) (y - inject_Z (Qfloor y))) as [H4|H4];
    try reflexivity; rewrite E in H3; lra.
Qed.

Lemma py_round_inject_Z (m : Z) : py_round (inject_Z m) = m.
Proof.
  unfold py_round. rewrite Qfloor_Z.
  destruct (Qlt_le_dec (inject_Z m - inject_Z m) (1 # 2)) as [H|H]; [done|lra].
Qed.

Lemma py_round_le_Z (x : Q) (m : Z) : (x <= inject_Z m)%Q -> py_round x <= m.
Proof.
  intros H. unfold py_round.
  assert (Hf : Qfloor x <= m).
  { rewrite <- (Qfloor_Z m). by apply Qfloor_resp_le. }
  destruct (Qlt_le_dec (x - inject_Z (Qfloor x)) (1 # 2)) as [H1|H1]; [done|].
  assert (Qfloor x < m).
  { destruct (Z.eq_dec (Qfloor x) m) as [E|E]; [|lia].
    rewrite E in H1. lra. }
  repeat (match goal with |- context [if ?c then _ else _] => destruct c end); lia.
Qed.

Lemma py_round_ge_Z (x : Q) (m : Z) : (inject_Z m <= x)%Q -> m <= py_round x.
Proof.
  intros H. unfold py_round.
  assert (Hf : m <= Qfloor x).
  { rewrite <- (Qfloor_Z m). by apply Qfloor_resp_le. }
  repeat (match goal with |- context [if ?c then _ else _] => destruct c end); lia.
Qed.

(** [round] is within a half of its argument. *)
Lemma py_round_error (x : Q) :
  (inject_Z (py_round x) - (1 # 2) <= x <= inject_Z (py_round x) + (1 # 2))%Q.
Proof.
  unfold py_round.
  pose proof (Qfloor_le x) as Hl. pose proof (Qlt_floor x) as Hu.
  rewrite inject_Z_plus in Hu. change (inject_Z 1) with 1%Q in Hu.
  repeat (match goal with |- context [if ?c then _ else _] => destruct c end);
    rewrite ?inject_Z_plus; change (inject_Z 1) with 1%Q; split; lra.
Qed.

Lemma pow2_pos (k : Z) : (0 < pow2 k)%Q.
Proof. by apply Qpower_0_lt. Qed.

Lemma pow2_add (a b : Z) : (pow2 (a + b) == pow2 a * pow2 b)%Q.
Proof. by apply Qpower_plus. Qed.

Lemma pow2_inject (k : Z) : 0 <= k -> (pow2 k == inject_Z (2 ^ k))%Q.
Proof. intros Hk. unfold pow2. by rewrite Zpower_Qpower. Qed.

Lemma pow2_le_inv (k l : Z) : (pow2 k <= pow2 l)%Q -> k <= l.
Proof. intros H. by apply (Qpower_le_compat_l_inv 2). Qed.

(** The exponent brackets the number between two powers of two. *)
Lemma exponent_spec (x : Q) :
  ~ (x == 0)%Q -> (pow2 (exponent x) <= Qabs x < pow2 (exponent x + 1))%Q.
Proof.
  intros Hx. destruct x as [n d].
  assert (Hn : 0 < Z.abs n).
  { destruct (Z.eq_dec n 0) as [->|?]; [by destruct Hx|lia]. }
  unfold exponent. cbn [Qnum Qden].
  set (a := Z.log2 (Z.abs n)). set (b := Z.log2 (Z.pos d)).
  change (Qabs (n # d)) with (Z.abs n # d).
  destruct (Z.log2_spec (Z.abs n) Hn) as [Ha1 Ha2].
  destruct (Z.log2_spec (Z.pos d) eq_refl) as [Hb1 Hb2].
  fold a in Ha1, Ha2. fold b in Hb1, Hb2.
  pose proof (Z.log2_nonneg (Z.abs n)) as Ha0. fold a in Ha0.
  pose proof (Z.log2_nonneg (Z.pos d)) as Hb0. fold b in Hb0.
  rewrite Zle_Qle, <- pow2_inject in Ha1 by done.
  rewrite Zlt_Qlt, <- pow2_inject in Ha2 by lia.
  rewrite Zle_Qle, <- pow2_inject in Hb1 by done.
  rewrite Zlt_Qlt, <- pow2_inject in Hb2 by lia.
  assert (Hd : (0 < inject_Z (Z.pos d))%Q).
  { change 0%Q with (inject_Z 0). by rewrite <- Zlt_Qlt. }
  assert (Hlow : (pow2 (a - b - 1) <= Z.abs n # d)%Q).
  { rewrite Qmake_Qdiv. apply Qle_shift_div_l; [done|].
    pose proof (pow2_add (a - b - 1) (Z.succ b)) as E.
    replace (a - b - 1 + Z.succ b) with a in E by lia.
    pose proof (pow2_pos (a - b - 1)).
    nra. }
  assert (Hup : (Z.abs n # d < pow2 (a - b + 1))%Q).
  { rewrite Qmake_Qdiv. apply Qlt_shift_div_r; [done|].
    pose proof (pow2_add (a - b + 1) b) as E.
    replace (a - b + 1 + b) with (Z.succ a) in E by lia.
    pose proof (pow2_pos (a - b + 1)).
    nra. }
  destruct (Qle_bool (pow2 (a - b)) (Z.abs n # d)) eqn:E.
  - apply Qle_bool_iff in E. by split.
  - split.
    + done.
    + replace (a - b - 1 + 1) with (a - b) by lia.
      apply Qnot_le_lt. intros H. apply Qle_bool_iff in H. congruence.
Qed.

(** A whole number no larger than [2 ** 53] is a multiple of the unit in
    the last place of every positive number below it. *)
Lemma ulp_divides (x : Q) (N : Z) :
  (0 < x)%Q -> (x <= inject_Z N)%Q -> N <= 2 ^ 53 ->
  exists M, (inject_Z N == inject_Z M * pow2 (exponent x - 52))%Q.
Proof.
  intros Hx HN H53.
  destruct (exponent_spec x) as [Hlo _]; [lra|].
  rewrite Qabs_pos in Hlo by lra.
  assert (He : exponent x <= 53).
  { apply pow2_le_inv. rewrite (pow2_inject 53) by done.
    rewrite Zle_Qle in H53. lra. }
  destruct (Z.eq_dec (exponent x) 53) as [E|E].
  - exists (2 ^ 52). rewrite E in *.
    assert (N = 2 ^ 53) as ->.
    { rewrite (pow2_inject 53) in Hlo by done.
      assert (H : (inject_Z (2 ^ 53) <= inject_Z N)%Q) by lra.
      rewrite <- Zle_Qle in H. lia. }
    reflexivity.
  - exists (N * 2 ^ (52 - exponent x)).
    rewrite inject_Z_mult, <- pow2_inject by lia.
    pose proof (pow2_add (52 - exponent x) (exponent x - 52)) as Ha.
    replace (52 - exponent x + (exponent x - 52)) with 0 in Ha by lia.
    change (pow2 0) with 1%Q in Ha.
    rewrite <- Qmult_assoc, <- Ha. ring.
Qed.

(** Rounding does not depend on how the fraction is written. *)
Lemma round_double_comp (x y : Q) : (x == y)%Q -> round_double x = round_double y.
Proof. intros E. unfold round_double. by rewrite (Qred_complete _ _ E). Qed.

Lemma round_double_unfold (x : Q) :
  ~ (x == 0)%Q ->
  round_double x
  = (inject_Z (py_round (Qred x / pow2 (exponent (Qred x) - 52)))
     * pow2 (exponent (Qred x) - 52))%Q.
Proof.
  intros Hx. unfold round_double.
  destruct (Qeq_bool (Qred x) 0) eqn:E; [|done].
  apply Qeq_bool_iff in E. rewrite Qred_correct in E. by destruct Hx.
Qed.

Lemma round_double_0 (x : Q) : (x == 0)%Q -> round_double x = 0%Q.
Proof. intros E. by rewrite (round_double_comp _ _ E). Qed.

(** Rounding keeps the sign. *)
Lemma round_double_nonneg (x : Q) : (0 <= x)%Q -> (0 <= round_double x)%Q.
Proof.
  intros Hx. destruct (Qeq_dec x 0) as [E|E].
  - rewrite round_double_0 by done. lra.
  - rewrite round_double_unfold by done.
    set (u := pow2 (exponent (Qred x) - 52)).
    assert (Hu : (0 < u)%Q) by apply pow2_pos.
    apply Qmult_le_0_compat; [|lra].
    change 0%Q with (inject_Z 0). rewrite <- Zle_Qle.
    apply py_round_ge_Z. change (inject_Z 0) with 0%Q.
    apply Qle_shift_div_l; [done|]. rewrite Qred_correct. lra.
Qed.

Lemma round_double_nonpos (x : Q) : (x <= 0)%Q -> (round_double x <= 0)%Q.
Proof.
  intros Hx. destruct (Qeq_dec x 0) as [E|E].
  - rewrite round_double_0 by done. lra.
  - rewrite round_double_unfold by done.
    set (u := pow2 (exponent (Qred x) - 52)).
    assert (Hu : (0 < u)%Q) by apply pow2_pos.
    assert (H : (inject_Z (py_round (Qred x / u)) <= 0)%Q).
    { change 0%Q with (inject_Z 0). rewrite <- Zle_Qle.
      apply py_round_le_Z. change (inject_Z 0) with 0%Q.
      apply Qle_shift_div_r; [done|]. rewrite Qred_correct. lra. }
    nra.
Qed.

(** Rounding never passes a whole number that a double holds exactly. *)
Lemma round_double_le_whole (x : Q) (N : Z) :
  0 <= N <= 2 ^ 53 -> (x <= inject_Z N)%Q -> (round_double x <= inject_Z N)%Q.
Proof.
  intros [HN0 HN] Hx.
  assert (HN0' : (0 <= inject_Z N)%Q).
  { change 0%Q with (inject_Z 0). by rewrite <- Zle_Qle. }
  destruct (Qlt_le_dec 0 x) as [Hpos|Hneg].
  - rewrite round_double_unfold by lra.
    destruct (ulp_divides (Qred x) N) as [M HM]; try done.
    { by rewrite Qred_correct. }
    { by rewrite Qred_correct. }
    set (u := pow2 (exponent (Qred x) - 52)) in *.
    assert (Hu : (0 < u)%Q) by apply pow2_pos.
    rewrite HM. apply Qmult_le_compat_r; [|lra].
    rewrite <- Zle_Qle. apply py_round_le_Z.
    apply Qle_shift_div_r; [done|]. rewrite Qred_correct, <- HM. done.
  - pose proof (round_double_nonpos x Hneg). lra.
Qed.

(** A whole number up to [2 ** 53] is a double. *)
Lemma round_double_whole (N : Z) :
  0 <= N <= 2 ^ 53 -> (round_double (inject_Z N) == inject_Z N)%Q.
Proof.
  intros [HN0 HN].
  destruct (Z.eq_dec N 0) as [->|Hnz]; [reflexivity|].
  assert (Hpos : (0 < inject_Z N)%Q).
  { change 0%Q with (inject_Z 0). rewrite <- Zlt_Qlt. lia. }
  rewrite round_double_unfold by lra.
  destruct (ulp_divides (Qred (inject_Z N)) N) as [M HM]; try done.
  { by rewrite Qred_correct. }
  { rewrite Qred_correct. lra. }
  set (u := pow2 (exponent (Qred (inject_Z N)) - 52)) in *.
  assert (Hu : (0 < u)%Q) by apply pow2_pos.
  rewrite (py_round_comp _ (inject_Z M)).
  - by rewrite py_round_inject_Z, HM.
  - rewrite Qred_correct, HM. field. lra.
Qed.

(** The rounded number is within half a unit in the last place. *)
Lemma round_double_error (x : Q) :
  ~ (x == 0)%Q ->
  (Qabs (round_double x - x) <= pow2 (exponent (Qred x) - 52) / 2)%Q.
Proof.
  intros Hx. rewrite round_double_unfold by done.
  set (u := pow2 (exponent (Qred x) - 52)).
  assert (Hu : (0 < u)%Q) by apply pow2_pos.
  pose proof (py_round_error (Qred x / u)) as [H1 H2].
  set (m := inject_Z (py_round (Qred x / u))) in *.
  assert (E : (Qred x / u * u == x)%Q).
  { rewrite Qred_correct. field. lra. }
  apply Qabs_Qle_condition. split.
  - assert (Qred x / u * u <= (m + (1 # 2)) * u)%Q by (apply Qmult_le_compat_r; lra).
    rewrite E in H.
    assert (Eh : (u / 2 == (1 # 2) * u)%Q) by field.
    rewrite Eh. lra.
  - assert ((m - (1 # 2)) * u <= Qred x / u * u)%Q by (apply Qmult_le_compat_r; lra).
    rewrite E in H.
    assert (Eh : (u / 2 == (1 # 2) * u)%Q) by field.
    rewrite Eh. lra.
Qed.

(** The rounded number has at most 53 significant bits. *)
Lemma round_double_significand (x : Q) :
  ~ (x == 0)%Q ->
  exists m, (round_double x == inject_Z m * pow2 (exponent (Qred x) - 52))%Q
            /\ 2 ^ 52 <= Z.abs m <= 2 ^ 53.
Proof.
  intros Hx. rewrite round_double_unfold by done.
  set (u := pow2 (exponent (Qred x) - 52)).
  assert (Hu : (0 < u)%Q) by apply pow2_pos.
  exists (py_round (Qred x / u)). split; [reflexivity|].
  destruct (exponent_spec (Qred x)) as [Hlo Hhi].
  { by rewrite Qred_correct. }
  pose proof (pow2_add (exponent (Qred x) - 52) 52) as E1.
  replace (exponent (Qred x) - 52 + 52) with (exponent (Qred x)) in E1 by lia.
  pose proof (pow2_add (exponent (Qred x) - 52) 53) as E2.
  replace (exponent (Qred x) - 52 + 53) with (exponent (Qred x) + 1) in E2 by lia.
  fold u in E1, E2. rewrite E1 in Hlo. rewrite E2 in Hhi.
  rewrite (pow2_inject 52) in Hlo by done. rewrite (pow2_inject 53) in Hhi by done.
  destruct (Qlt_le_dec 0 (Qred x)) as [Hpos|Hneg].
  - rewrite Qabs_pos in Hlo, Hhi by lra.
    assert (2 ^ 52 <= py_round (Qred x / u)).
    { apply py_round_ge_Z. apply Qle_shift_div_l; [done|]. lra. }
    assert (py_round (Qred x / u) <= 2 ^ 53).
    { apply py_round_le_Z. apply Qle_shift_div_r; [done|]. lra. }
    lia.
  - rewrite Qabs_neg in Hlo, Hhi by lra.
    assert (py_round (Qred x / u) <= - 2 ^ 52).
    { apply py_round_le_Z. apply Qle_shift_div_r; [done|].
      rewrite inject_Z_opp. lra. }
    assert (- 2 ^ 53 <= py_round (Qred x / u)).
    { apply py_round_ge_Z. apply Qle_shift_div_l; [done|].
      rewrite inject_Z_opp. lra. }
    lia.
Qed.

(** The product of 900 and the double of 0.3 lies just below 270; the
    machine rounds it to 270, which is what [int] then sees. *)
Lemma float_mul_900_by_0_3 :
  py_int (float_mul 900 (3 # 10)) = 270
  /\ py_int (900 * round_double (3 # 10)) = 269.
Proof. split; vm_compute; reflexivity. Qed.

(** The product of 1600 and the double of 0.29 is rounded to the double
    just below 464. *)
Lemma float_mul_1600_by_0_29 : py_int (float_mul 1600 (29 # 100)) = 463.
Proof. vm_compute; reflexivity. Qed.

Lemma sizes_lookup (dim : ndarray -> nat) (imgs : list ndarray) (scales : list Q)
    (i : nat) (img : ndarray) (s : Q) :
  imgs !! i = Some img -> scales !! i = Some s ->
  RandomScaleImageMultiViewImage.sizes dim imgs scales !! i
  = Some (py_int (float_mul (inject_Z (Z.of_nat (dim img))) s)).
Proof.
  intros Hi Hs. unfold RandomScaleImageMultiViewImage.sizes.
  rewrite lookup_zip_with, Hi. simpl. by rewrite Hs.
Qed.

Lemma sizes_length (dim : ndarray -> nat) (imgs : list ndarray) (scales : list Q) :
  (length imgs <= length scales)%nat ->
  length (RandomScaleImageMultiViewImage.sizes dim imgs scales) = length imgs.
Proof.
  intros H. unfold RandomScaleImageMultiViewImage.sizes.
  rewrite length_zip_with. lia.
Qed.

Lemma bind_Ok {A B : Type} (m : result A) (k : A -> result B) (b : B) :
  bind m k = Ok b -> exists a, m = Ok a /\ k a = Ok b.
Proof. destruct m as [a|e]; simpl; [by exists a | discriminate]. Qed.

(** What the first stage leaves in the record: in the plain mode
    nothing changes, in the two other modes ['focal_ratios'] is set to
    one ratio for every scale. *)
Lemma effective_scales_record (self : RandomScaleImageMultiViewImage.t)
    (results results1 : gmap string pyval) (g g1 : rng) (rand_scales : list Q) :
  RandomScaleImageMultiViewImage.effective_scales self results g
  = Ok (rand_scales, results1, g1) ->
  match RandomScaleImageMultiViewImage.ref_focal_len self,
        RandomScaleImageMultiViewImage.random_scale self with
  | None, None => results1 = results
  | _, _ =>
      exists focal_ratios,
        results1 = <["focal_ratios" := VFloats focal_ratios]> results
        /\ length focal_ratios = length rand_scales
  end.
Proof.
  unfold RandomScaleImageMultiViewImage.effective_scales.
  assert (Hcomp : forall (l : list Q) l',
    comprehension (fun focal_ratio =>
      let* s := index (RandomScaleImageMultiViewImage.scales self) 0 in
      Ok (s * focal_ratio)%Q) l = Ok l' -> length l = length l').
  { induction l as [|x l IH]; intros l' E; simpl in E; [by injection E as <-|].
    apply bind_Ok in E as (y & _ & E). apply bind_Ok in E as (ys & E1 & E).
    injection E as <-. simpl. f_equal. by apply IH. }
  destruct (RandomScaleImageMultiViewImage.ref_focal_len self) as [ref|].
  - intros E. apply bind_Ok in E as (lens & _ & E).
    apply bind_Ok in E as (fr & _ & E). apply bind_Ok in E as (rs & Hrs & E).
    injection E as <- <- <-. exists fr. split; [done|]. by apply Hcomp.
  - destruct (RandomScaleImageMultiViewImage.random_scale self) as [rs|].
    + intros E. apply bind_Ok in E as (imgs & _ & E).
      destruct (np_random_rand (length imgs) g) as [us g'].
      apply bind_Ok in E as (hi & _ & E). apply bind_Ok in E as (lo & _ & E).
      apply bind_Ok in E as (sc & Hsc & E). injection E as <- <- <-.
      eexists. split; [done|]. by apply Hcomp.
    + intros E. apply bind_Ok in E as (imgs & _ & E). by injection E as <- <- <-.
Qed.

Lemma effective_scales_img (self : RandomScaleImageMultiViewImage.t)
    (results results1 : gmap string pyval) (g g1 : rng) (rand_scales : list Q) (key : string) :
  RandomScaleImageMultiViewImage.effective_scales self results g
  = Ok (rand_scales, results1, g1) ->
  key <> "focal_ratios" ->
  results1 !! key = results !! key.
Proof.
  intros E Hkey. apply effective_scales_record in E.
  destruct (RandomScaleImageMultiViewImage.ref_focal_len self),
    (RandomScaleImageMultiViewImage.random_scale self);
    try (destruct E as (fr & -> & _); by rewrite lookup_insert_ne).
  by subst.
Qed.

(** The plain mode: the one scale of the configuration, for every image. *)
Lemma effective_scales_fixed (self : RandomScaleImageMultiViewImage.t)
    (results : gmap string pyval) (g : rng) (imgs : list ndarray) (s : Q) :
  RandomScaleImageMultiViewImage.ref_focal_len self = None ->
  RandomScaleImageMultiViewImage.random_scale self = None ->
  RandomScaleImageMultiViewImage.scales self = [s] ->
  results !! "img" = Some (VImgs imgs) ->
  RandomScaleImageMultiViewImage.effective_scales self results g
  = Ok (replicate (length imgs) s, results, g).
Proof.
  intros Href Hrs Hs Himg. unfold RandomScaleImageMultiViewImage.effective_scales.
  rewrite Href, Hrs, Hs, (get_imgs_Some _ _ _ Himg). simpl. do 3 f_equal.
  induction (length imgs) as [|n IH]; simpl; [done|]. by rewrite IH.
Qed.

Lemma np_random_rand_length (n : nat) (g : rng) :
  length (fst (np_random_rand n g)) = n.
Proof.
  revert g. induction n as [|n IH]; intros g; simpl; [done|].
  specialize (IH (Rng (tape g) (S (cursor g)))).
  destruct (np_random_rand n _) as [us g']. simpl in *. by rewrite IH.
Qed.

(** The random-ratio mode: the scale times one ratio of the range for
    every image, the ratios being stored. *)
Lemma effective_scales_random (self : RandomScaleImageMultiViewImage.t)
    (results : gmap string pyval) (g : rng) (imgs : list ndarray) (s lo hi : Q) :
  RandomScaleImageMultiViewImage.ref_focal_len self = None ->
  RandomScaleImageMultiViewImage.random_scale self = Some [lo; hi] ->
  RandomScaleImageMultiViewImage.scales self = [s] ->
  results !! "img" = Some (VImgs imgs) ->
  let focal_ratios :=
    map (fun u => (u * (hi - lo) + lo)%Q) (fst (np_random_rand (length imgs) g)) in
  RandomScaleImageMultiViewImage.effective_scales self results g
  = Ok (map (fun ratio => (s * ratio)%Q) focal_ratios,
        <["focal_ratios" := VFloats focal_ratios]> results,
        snd (np_random_rand (length imgs) g))
  /\ length focal_ratios = length imgs.
Proof.
  intros Href Hrs Hs Himg focal_ratios. split.
  - unfold RandomScaleImageMultiViewImage.effective_scales.
    rewrite Href, Hrs, Hs, (get_imgs_Some _ _ _ Himg). simpl.
    subst focal_ratios.
    destruct (np_random_rand (length imgs) g) as [us g']. simpl.
    by rewrite (comprehension_total _ (fun ratio => (s * ratio)%Q)).
  - subst focal_ratios. by rewrite length_map, np_random_rand_length.
Qed.

(** The focal-length mode: the scale times the reference focal length
    over the focal length of every camera, the ratios being stored. *)
Lemma effective_scales_focal (self : RandomScaleImageMultiViewImage.t)
    (results : gmap string pyval) (g : rng) (s ref : Q)
    (intrinsic : list (list (list Q))) (lens : list Q) :
  RandomScaleImageMultiViewImage.ref_focal_len self = Some ref ->
  RandomScaleImageMultiViewImage.scales self = [s] ->
  results !! "metas" = Some (VMetas intrinsic) ->
  Forall2 (fun m f => exists row rest, m = (f :: row) :: rest /\ ~ (f == 0)%Q)
    intrinsic lens ->
  RandomScaleImageMultiViewImage.effective_scales self results g
  = Ok (map (fun f => (s * (ref * 1 / f))%Q) lens,
        <["focal_ratios" := VFloats (map (fun f => (ref * 1 / f)%Q) lens)]> results,
        g).
Proof.
  intros Href Hs Hmetas Hlens.
  unfold RandomScaleImageMultiViewImage.effective_scales,
    RandomScaleImageMultiViewImage.focal_lens.
  rewrite Href, Hs, Hmetas.
  assert (E1 : comprehension (fun m => let* row := index m 0 in index row 0) intrinsic
               = Ok lens).
  { clear Hmetas.
    induction Hlens as [|m f ms fs (row & rest & -> & _) _ IH]; [done|].
    cbn. cbn in IH. by rewrite IH. }
  rewrite E1. simpl.
  assert (E2 : comprehension (fun focal_len => truediv (ref * 1) focal_len) lens
               = Ok (map (fun f => (ref * 1 / f)%Q) lens)).
  { apply comprehension_total. intros f Hin.
    apply truediv_nonzero.
    clear E1 Hmetas. induction Hlens as [|m f' ms fs (row & rest & _ & Hnz) _ IH];
      [by apply elem_of_nil in Hin|].
    apply elem_of_cons in Hin as [->|Hin]; [done | by apply IH]. }
  rewrite E2. simpl.
  rewrite (comprehension_total _ (fun ratio => (s * ratio)%Q)) by done. simpl.
  by rewrite List.map_map.
Qed.

(** The call, once the scales are known: the record it returns. *)
Lemma rescale_call (interp : ndarray -> nat -> nat -> nat -> nat -> pixel)
    (self : RandomScaleImageMultiViewImage.t)
    (results results1 : gmap string pyval) (g g1 : rng)
    (imgs : list ndarray) (rand_scales : list Q) (p0 p1 : Q) :
  results !! "img" = Some (VImgs imgs) ->
  RandomScaleImageMultiViewImage.effective_scales self results g
  = Ok (rand_scales, results1, g1) ->
  (length imgs <= length rand_scales)%nat ->
  RandomScaleImageMultiViewImage.pad_scale_rate self !! 0%nat = Some p0 ->
  RandomScaleImageMultiViewImage.pad_scale_rate self !! 1%nat = Some p1 ->
  ~ (p0 == 0)%Q -> ~ (p1 == 0)%Q ->
  RandomScaleImageMultiViewImage.__call__ interp self results g
  = Ok (<["img" := VImgs
            (zip_with (mmcv.imresize interp) imgs
               (zip (RandomScaleImageMultiViewImage.sizes shape1 imgs rand_scales)
                    (RandomScaleImageMultiViewImage.sizes shape0 imgs rand_scales)))]>
          (<["focal_ratios_y" := VFloats (map (fun scale => (scale / p0)%Q) rand_scales)]>
             (<["focal_ratios_x" := VFloats (map (fun scale => (scale / p1)%Q) rand_scales)]>
                results1)), g1).
Proof.
  intros Himg Heff Hlen Hp0 Hp1 Hn0 Hn1.
  unfold RandomScaleImageMultiViewImage.__call__. rewrite Heff. simpl.
  rewrite (ratios_nonzero self 1 p1) by done. simpl.
  rewrite (ratios_nonzero self 0 p0) by done. simpl.
  rewrite (get_imgs_Some _ _ imgs).
  2:{ rewrite !lookup_insert_ne by done.
      by rewrite (effective_scales_img _ _ _ _ _ _ _ Heff). }
  simpl. rewrite resize_targets_zip by (rewrite sizes_length; simpl; lia).
  simpl. rewrite drop_0, firstn_all2; [done|].
  rewrite length_zip_with, !sizes_length by done. lia.
Qed.



(** On a product that is not negative, [int] is the floor. *)
Lemma py_int_floor (x : Q) : (0 <= x)%Q -> py_int x = Qfloor x.
Proof.
  destruct x as [n d]. unfold Qle, py_int, Qfloor. simpl. intros Hn.
  apply Z.quot_div_nonneg; lia.
Qed.




(** The two sample rescalers are what the constructor builds. *)
Lemma focal_rescaler_init :
  RandomScaleImageMultiViewImage.__init__ [1 # 2] (Some 900%Q) None None
  = Ok focal_rescaler.
Proof. reflexivity. Qed.

Lemma random_rescaler_init :
  RandomScaleImageMultiViewImage.__init__ [1 # 2] None (Some [4 # 5; 6 # 5]) None
  = Ok random_rescaler.
Proof. reflexivity. Qed.



(** * Further properties of the transforms *)

(** ** The padder and its record *)

Lemma comprehension_Raise {A B : Type} (f : A -> result B) (l : list A) (e : exn) :
  comprehension f l = Raise e -> exists x, x ∈ l /\ f x = Raise e.
Proof.
  induction l as [|x l IH]; simpl; [discriminate|].
  destruct (f x) as [y|e'] eqn:Ex; simpl.
  - destruct (comprehension f l) as [ys|e'']; simpl; [discriminate|].
    intros E. injection E as ->.
    destruct (IH eq_refl) as (x' & Hin & Hx').
    exists x'. split; [by apply list_elem_of_further | done].
  - intros E. injection E as ->. exists x. split; [apply list_elem_of_here | done].
Qed.

(** A padder with a mode pads every list image by image with [pad_one],
    unless its divisor is zero. *)
Lemma pad_list_pad_one (self : PadMultiViewImage.t) (imgs : list ndarray) :
  (PadMultiViewImage.size self <> None
   \/ exists d, PadMultiViewImage.size_divisor self = Some d /\ d <> 0) ->
  PadMultiViewImage.pad_list self imgs = Ok (map (pad_one self) imgs).
Proof.
  intros Hmode. unfold PadMultiViewImage.pad_list, pad_one.
  destruct (PadMultiViewImage.size self) as [sz|]; [done|].
  destruct Hmode as [Hsz|(d & -> & Hd)]; [done|].
  apply comprehension_total. intros img _. unfold mmcv.impad_to_multiple.
  by destruct (Z.eqb_spec d 0).
Qed.

(** The record of a call, key by key. *)
Lemma pad_call_lookup (self : PadMultiViewImage.t) (f : ndarray -> ndarray)
    (results : gmap string pyval) :
  (forall imgs, PadMultiViewImage.pad_list self imgs = Ok (map f imgs)) ->
  pad_input results ->
  exists results',
    PadMultiViewImage.__call__ self results = Ok results'
    /\ forall key, results' !! key = pad_lookup self f results key.
Proof.
  intros Hpad ([imgs Himg] & Hextra & Hori).
  unfold PadMultiViewImage.__call__, PadMultiViewImage._pad_img.
  assert (Hmode : forall (A : Type) (a b : result A),
    match PadMultiViewImage.size self, PadMultiViewImage.size_divisor self with
    | None, None => a
    | _, _ => b
    end = b).
  { intros A a b. specialize (Hpad []). unfold PadMultiViewImage.pad_list in Hpad.
    destruct (PadMultiViewImage.size self), (PadMultiViewImage.size_divisor self);
      done. }
  rewrite Hmode.
  rewrite (get_imgs_Some _ _ _ Himg). simpl. rewrite Hpad. simpl.
  assert (Hopt : forall key, image_field results key ->
    exists o, PadMultiViewImage.pad_optional self results key = Ok o
      /\ match o with
         | Some l => exists imgs, results !! key = Some (VImgs imgs) /\ l = map f imgs
         | None => results !! key = None
         end).
  { intros key [Hnone|[l Hl]]; unfold PadMultiViewImage.pad_optional.
    - rewrite (has_key_false _ _ Hnone). by exists None.
    - rewrite (has_key_true _ _ _ Hl), (get_imgs_Some _ _ _ Hl). simpl.
      rewrite Hpad. simpl. exists (Some (map f l)). eauto. }
  destruct (Hopt _ Hextra) as (oe & -> & Hoe).
  destruct (Hopt _ Hori) as (oo & -> & Hoo). simpl.
  eexists. split; [done|].
  intros key. unfold pad_lookup, image_keys.
  destruct (decide (key = "ori_img")) as [->|Hk1].
  { simpl. destruct oo as [lo|]; simpl.
    - destruct Hoo as (l' & -> & ->). by simplify_map_eq.
    - rewrite Hoo. destruct oe; simpl; by simplify_map_eq. }
  destruct (decide (key = "extra_img")) as [->|Hk2].
  { simpl. destruct oo as [lo|], oe as [le|]; simpl; simplify_map_eq; try done.
    all: try (destruct Hoe as (l' & -> & ->); done).
    all: by rewrite Hoe. }
  destruct (decide (key = "pad_size_divisor")) as [->|Hk3].
  { simpl. destruct oo as [lo|], oe as [le|]; simpl; by simplify_map_eq. }
  destruct (decide (key = "pad_fixed_size")) as [->|Hk4].
  { simpl. destruct oo as [lo|], oe as [le|]; simpl; by simplify_map_eq. }
  destruct (decide (key = "img")) as [->|Hk5].
  { simpl. rewrite Himg.
    destruct oo as [lo|], oe as [le|]; simpl; by simplify_map_eq. }
  rewrite (bool_decide_eq_false_2 (key = "pad_fixed_size")) by done.
  rewrite (bool_decide_eq_false_2 (key = "pad_size_divisor")) by done.
  rewrite bool_decide_eq_false_2.
  2:{ rewrite !elem_of_cons, elem_of_nil. tauto. }
  destruct oo as [lo|], oe as [le|]; simpl; by simplify_map_eq.
Qed.

Lemma pad_lookup_is_Some (self : PadMultiViewImage.t) (f : ndarray -> ndarray)
    (results : gmap string pyval) (key : string) :
  is_Some (pad_lookup self f results key)
  <-> is_Some (results !! key) \/ key = "pad_fixed_size" \/ key = "pad_size_divisor".
Proof.
  unfold pad_lookup.
  repeat case_bool_decide; subst.
  - split; [by auto | by eexists].
  - split; [by auto | by eexists].
  - destruct (results !! key) as [[]|]; split; try (by eexists); try (by auto);
      intros [[? ?]|[?|?]]; done.
  - split; [by auto | by intros [?|[?|?]]].
Qed.

(** A padder that the constructor built has exactly one mode. *)
Lemma pad_init_modes (size : option (Z * Z)) (size_divisor : option Z) (pad_val : Q)
    (self : PadMultiViewImage.t) :
  PadMultiViewImage.__init__ size size_divisor pad_val = Ok self ->
  PadMultiViewImage.pad_val self = pad_val
  /\ PadMultiViewImage.size self = size
  /\ PadMultiViewImage.size_divisor self = match size with Some _ => None | None => size_divisor end
  /\ (size <> None \/ size_divisor <> None).
Proof.
  destruct size as [sz|].
  - rewrite pad_init_size. intros E. injection E as <-. simpl. by auto.
  - destruct size_divisor as [d|]; [|discriminate].
    rewrite pad_init_divisor. intros E. injection E as <-. simpl. by auto.
Qed.

(** X1: a call of a padder built by the constructor records the mode it
    padded with: the fixed size under ['pad_fixed_size'], the divisor
    under ['pad_size_divisor'], and exactly one of the two is [None];
    with a size and a divisor both given, the divisor recorded is
    [None]. *)
Theorem pad_call_records_mode (size : option (Z * Z)) (size_divisor : option Z)
    (pad_val : Q) (self : PadMultiViewImage.t) (results results' : gmap string pyval) :
  PadMultiViewImage.__init__ size size_divisor pad_val = Ok self ->
  PadMultiViewImage.__call__ self results = Ok results' ->
  results' !! "pad_fixed_size" = Some (PadMultiViewImage.opt_size size)
  /\ results' !! "pad_size_divisor"
     = Some (PadMultiViewImage.opt_int match size with Some _ => None | None => size_divisor end)
  /\ (results' !! "pad_fixed_size" = Some VNone
      <-> results' !! "pad_size_divisor" <> Some VNone).
Proof.
  intros Hinit Hcall.
  destruct (pad_init_modes _ _ _ _ Hinit) as (_ & Hsz & Hdiv & Hmode).
  unfold PadMultiViewImage.__call__, PadMultiViewImage._pad_img in Hcall.
  rewrite Hsz, Hdiv in Hcall.
  assert (Hrec : exists pi pe po,
    results' = PadMultiViewImage.set_optional "ori_img" po
      (PadMultiViewImage.set_optional "extra_img" pe
         (<["pad_size_divisor" :=
              PadMultiViewImage.opt_int match size with Some _ => None | None => size_divisor end]>
            (<["pad_fixed_size" := PadMultiViewImage.opt_size size]>
               (<["img" := VImgs pi]> results))))).
  { destruct size as [sz|], size_divisor as [d|]; try (by destruct Hmode);
      apply bind_Ok in Hcall as (imgs & _ & Hcall);
      apply bind_Ok in Hcall as (pi & _ & Hcall);
      apply bind_Ok in Hcall as (pe & _ & Hcall);
      apply bind_Ok in Hcall as (po & _ & Hcall);
      injection Hcall as <-; by exists pi, pe, po. }
  destruct Hrec as (pi & pe & po & ->).
  assert (H1 : forall v, PadMultiViewImage.set_optional "ori_img" po
      (PadMultiViewImage.set_optional "extra_img" pe
         (<["pad_size_divisor" := v]>
            (<["pad_fixed_size" := PadMultiViewImage.opt_size size]>
               (<["img" := VImgs pi]> results)))) !! "pad_fixed_size"
    = Some (PadMultiViewImage.opt_size size)).
  { intros v. destruct po, pe; simpl; by simplify_map_eq. }
  assert (H2 : forall v, PadMultiViewImage.set_optional "ori_img" po
      (PadMultiViewImage.set_optional "extra_img" pe
         (<["pad_size_divisor" := v]>
            (<["pad_fixed_size" := PadMultiViewImage.opt_size size]>
               (<["img" := VImgs pi]> results)))) !! "pad_size_divisor"
    = Some v).
  { intros v. destruct po, pe; simpl; by simplify_map_eq. }
  rewrite H1, H2. split; [done|]. split; [done|].
  destruct size as [sz|], size_divisor as [d|]; simpl; try (by destruct Hmode);
    split; congruence.
Qed.

(** A padder built by the constructor, whose divisor is not zero, pads
    every list with [pad_one]. *)
Lemma pad_init_pad_list (size : option (Z * Z)) (size_divisor : option Z)
    (pad_val : Q) (self : PadMultiViewImage.t) :
  PadMultiViewImage.__init__ size size_divisor pad_val = Ok self ->
  (size = None -> size_divisor <> Some 0) ->
  forall imgs, PadMultiViewImage.pad_list self imgs = Ok (map (pad_one self) imgs).
Proof.
  intros Hinit Hd imgs.
  destruct (pad_init_modes _ _ _ _ Hinit) as (_ & Hsz & Hdiv & Hmode).
  apply pad_list_pad_one. rewrite Hsz, Hdiv.
  destruct size as [sz|]; [by left|]. right.
  destruct size_divisor as [d|]; [|by destruct Hmode].
  exists d. split; [done|]. intros ->. by apply Hd.
Qed.

(** X2: a call of the padder adds exactly the two keys
    ['pad_fixed_size'] and ['pad_size_divisor'] to the record: the
    optional lists ['extra_img'] and ['ori_img'] are padded when present
    and are not created when absent, and every key other than the
    three image keys and the two recorded ones keeps its value. *)
Theorem pad_call_frame (size : option (Z * Z)) (size_divisor : option Z)
    (pad_val : Q) (self : PadMultiViewImage.t) (results : gmap string pyval) :
  PadMultiViewImage.__init__ size size_divisor pad_val = Ok self ->
  (size = None -> size_divisor <> Some 0) ->
  pad_input results ->
  exists results',
    PadMultiViewImage.__call__ self results = Ok results'
    /\ dom results' = dom results ∪ {["pad_fixed_size"; "pad_size_divisor"]}
    /\ (forall key, key ∈ ["extra_img"; "ori_img"] ->
          results !! key = None -> results' !! key = None)
    /\ (forall key, key ∉ image_keys ->
          key <> "pad_fixed_size" -> key <> "pad_size_divisor" ->
          results' !! key = results !! key).
Proof.
  intros Hinit Hd Hin.
  destruct (pad_call_lookup self (pad_one self) results
              (pad_init_pad_list _ _ _ _ Hinit Hd) Hin) as (results' & Hcall & Hlook).
  exists results'. split; [done|]. split; [|split].
  - apply set_eq. intros key.
    rewrite elem_of_union, !elem_of_dom, Hlook, pad_lookup_is_Some.
    rewrite elem_of_union, !elem_of_singleton. tauto.
  - intros key Hkey Hnone. rewrite Hlook. unfold pad_lookup.
    repeat (apply elem_of_cons in Hkey as [->|Hkey]);
      [| |by apply elem_of_nil in Hkey]; simpl; by rewrite Hnone.
  - intros key Hk1 Hk2 Hk3. rewrite Hlook. unfold pad_lookup.
    by rewrite !bool_decide_eq_false_2.
Qed.

Lemma bind_Raise {A B : Type} (m : result A) (k : A -> result B) (e : exn) :
  bind m k = Raise e -> m = Raise e \/ exists a, m = Ok a /\ k a = Raise e.
Proof.
  destruct m as [a|e']; simpl; intros E.
  - right. by exists a.
  - left. by injection E as ->.
Qed.

Lemma get_imgs_not_unbound (results : gmap string pyval) (key : string) :
  get_imgs results key <> Raise UnboundLocalError.
Proof. unfold get_imgs. by destruct (results !! key) as [[]|]. Qed.

Lemma pad_list_not_unbound (self : PadMultiViewImage.t) (imgs : list ndarray) :
  (PadMultiViewImage.size self <> None \/ PadMultiViewImage.size_divisor self <> None) ->
  PadMultiViewImage.pad_list self imgs <> Raise UnboundLocalError.
Proof.
  intros Hmode. unfold PadMultiViewImage.pad_list.
  destruct (PadMultiViewImage.size self) as [sz|]; [done|].
  destruct (PadMultiViewImage.size_divisor self) as [d|]; [|by destruct Hmode].
  intros E. apply comprehension_Raise in E as (img & _ & E).
  unfold mmcv.impad_to_multiple in E. by destruct (d =? 0).
Qed.

Lemma pad_optional_not_unbound (self : PadMultiViewImage.t)
    (results : gmap string pyval) (key : string) :
  (PadMultiViewImage.size self <> None \/ PadMultiViewImage.size_divisor self <> None) ->
  PadMultiViewImage.pad_optional self results key <> Raise UnboundLocalError.
Proof.
  intros Hmode. unfold PadMultiViewImage.pad_optional.
  destruct (has_key results key); [|done]. intros E.
  apply bind_Raise in E as [E|(imgs & _ & E)]; [by apply get_imgs_not_unbound in E|].
  apply bind_Raise in E as [E|(l & _ & E)]; [by apply pad_list_not_unbound in E | done].
Qed.

(** X3: on a padder built by the constructor the call never reads the
    padded list before it is bound (no [UnboundLocalError], whatever the
    record), and a record without ['img'] makes it raise [KeyError]. *)
Theorem pad_call_errors (size : option (Z * Z)) (size_divisor : option Z)
    (pad_val : Q) (self : PadMultiViewImage.t) (results : gmap string pyval) :
  PadMultiViewImage.__init__ size size_divisor pad_val = Ok self ->
  PadMultiViewImage.__call__ self results <> Raise UnboundLocalError
  /\ (results !! "img" = None ->
        PadMultiViewImage.__call__ self results = Raise KeyError).
Proof.
  intros Hinit.
  destruct (pad_init_modes _ _ _ _ Hinit) as (_ & Hsz & Hdiv & Hmode).
  assert (Hself : PadMultiViewImage.size self <> None
                  \/ PadMultiViewImage.size_divisor self <> None).
  { rewrite Hsz, Hdiv. destruct size; [by left | right; by destruct Hmode]. }
  unfold PadMultiViewImage.__call__, PadMultiViewImage._pad_img.
  destruct (PadMultiViewImage.size self) as [sz|] eqn:Esz,
    (PadMultiViewImage.size_divisor self) as [d|] eqn:Ediv;
    try (by destruct Hself).
  all: split;
    [ intros E;
      apply bind_Raise in E as [E|(imgs & _ & E)];
        [by apply get_imgs_not_unbound in E|];
      apply bind_Raise in E as [E|(pi & _ & E)];
        [apply pad_list_not_unbound in E; [done | rewrite Esz, Ediv; by auto]|];
      apply bind_Raise in E as [E|(pe & _ & E)];
        [apply pad_optional_not_unbound in E; [done | rewrite Esz, Ediv; by auto]|];
      apply bind_Raise in E as [E|(po & _ & E)];
        [apply pad_optional_not_unbound in E; [done | rewrite Esz, Ediv; by auto]|];
      discriminate
    | intros Hnone; unfold get_imgs; by rewrite Hnone ].
Qed.

(** ** Padding twice *)

Lemma impad_within (img : ndarray) (Hz Wz : Z) (v : Q) :
  Hz <= Z.of_nat (shape0 img) -> Wz <= Z.of_nat (shape1 img) ->
  mmcv.impad img (Hz, Wz) v = img.
Proof.
  intros Hh Hw. unfold mmcv.impad. simpl.
  replace (Z.to_nat (Z.max (Wz - Z.of_nat (shape1 img)) 0)) with 0%nat by lia.
  replace (Z.to_nat (Z.max (Hz - Z.of_nat (shape0 img)) 0)) with 0%nat by lia.
  destruct img as [dt rs]. simpl. rewrite app_nil_r. f_equal. clear.
  induction rs as [|r rs IH]; simpl; [done|]. by rewrite app_nil_r, IH.
Qed.

Lemma impad_empty (dt : np_dtype) (Hz Wz : Z) (v : Q) :
  Hz <= 0 -> mmcv.impad (Ndarray dt []) (Hz, Wz) v = Ndarray dt [].
Proof.
  intros Hh. unfold mmcv.impad. cbn [fst snd rows dtype map app].
  replace (Z.to_nat (Z.max (Hz - Z.of_nat (shape0 (Ndarray dt []))) 0)) with 0%nat;
    [reflexivity|].
  unfold shape0. simpl. lia.
Qed.

Lemma impad_shape0 (img : ndarray) (Hz Wz : Z) (v : Q) :
  Z.of_nat (shape0 (mmcv.impad img (Hz, Wz) v)) = Z.max Hz (Z.of_nat (shape0 img)).
Proof.
  unfold mmcv.impad, shape0. simpl.
  rewrite length_app, length_map, length_replicate. lia.
Qed.

Lemma impad_shape1 (img : ndarray) (Hz Wz : Z) (v : Q) :
  rows (mmcv.impad img (Hz, Wz) v) <> [] ->
  Z.of_nat (shape1 (mmcv.impad img (Hz, Wz) v)) = Z.max Wz (Z.of_nat (shape1 img)).
Proof.
  unfold mmcv.impad, shape1. simpl.
  destruct (rows img) as [|row rs]; simpl.
  - destruct (Z.to_nat (Z.max (Hz - Z.of_nat (shape0 img)) 0)); simpl; [done|].
    intros _. rewrite length_replicate. lia.
  - intros _. rewrite length_app, length_replicate. lia.
Qed.

(** Padding an image that is already padded changes nothing. *)
Lemma impad_idempotent (img : ndarray) (sz : Z * Z) (v : Q) :
  mmcv.impad (mmcv.impad img sz v) sz v = mmcv.impad img sz v.
Proof.
  destruct sz as [Hz Wz].
  destruct (rows (mmcv.impad img (Hz, Wz) v)) as [|row rs] eqn:Erows.
  - pose proof (impad_shape0 img Hz Wz v) as H0.
    unfold shape0 at 1 in H0. rewrite Erows in H0. simpl in H0.
    destruct (mmcv.impad img (Hz, Wz) v) as [dt rs'] eqn:E. simpl in Erows. subst rs'.
    apply impad_empty. lia.
  - apply impad_within.
    + rewrite impad_shape0. lia.
    + rewrite impad_shape1 by (by rewrite Erows). lia.
Qed.

Lemma ceil_of_multiple (m d : Z) :
  0 < d -> (d | m) -> Qceiling (inject_Z m / inject_Z d) * d = m.
Proof.
  intros Hd Hm. destruct (ceil_smallest_multiple m d Hd) as (_ & Hge & Hmin).
  specialize (Hmin m Hm). lia.
Qed.

Lemma impad_to_multiple_idempotent (img : ndarray) (d : Z) (v : Q) :
  0 < d ->
  let pad img :=
    mmcv.impad img
      (Qceiling (inject_Z (Z.of_nat (shape0 img)) / inject_Z d) * d,
       Qceiling (inject_Z (Z.of_nat (shape1 img)) / inject_Z d) * d) v in
  pad (pad img) = pad img.
Proof.
  intros Hd pad. unfold pad.
  set (ph := Qceiling (inject_Z (Z.of_nat (shape0 img)) / inject_Z d) * d).
  set (pw := Qceiling (inject_Z (Z.of_nat (shape1 img)) / inject_Z d) * d).
  destruct (ceil_smallest_multiple (Z.of_nat (shape0 img)) d Hd) as (Hdh & Hgeh & _).
  destruct (ceil_smallest_multiple (Z.of_nat (shape1 img)) d Hd) as (Hdw & Hgew & _).
  fold ph in Hdh, Hgeh. fold pw in Hdw, Hgew.
  pose proof (impad_shape0 img ph pw v) as H0.
  destruct (rows (mmcv.impad img (ph, pw) v)) as [|row rs] eqn:Erows.
  - unfold shape0 at 1 in H0. rewrite Erows in H0. simpl in H0.
    destruct (mmcv.impad img (ph, pw) v) as [dt rs'] eqn:E. simpl in Erows. subst rs'.
    apply impad_empty.
    change (Z.of_nat (shape0 (Ndarray dt []))) with 0.
    rewrite (ceil_of_multiple 0 d Hd (Z.divide_0_r d)). lia.
  - pose proof (impad_shape1 img ph pw v) as H1.
    rewrite Erows in H1. specialize (H1 ltac:(done)).
    apply impad_within.
    + rewrite H0. replace (Z.max ph (Z.of_nat (shape0 img))) with ph by lia.
      by rewrite ceil_of_multiple.
    + rewrite H1. replace (Z.max pw (Z.of_nat (shape1 img))) with pw by lia.
      by rewrite ceil_of_multiple.
Qed.

Lemma pad_one_idempotent (self : PadMultiViewImage.t) (img : ndarray) :
  (forall d, PadMultiViewImage.size self = None ->
             PadMultiViewImage.size_divisor self = Some d -> 0 < d) ->
  pad_one self (pad_one self img) = pad_one self img.
Proof.
  intros Hd. unfold pad_one.
  destruct (PadMultiViewImage.size self) as [sz|]; [apply impad_idempotent|].
  destruct (PadMultiViewImage.size_divisor self) as [d|]; [|done].
  apply (impad_to_multiple_idempotent img d). by apply Hd.
Qed.

Lemma pad_lookup_idempotent (self : PadMultiViewImage.t) (f : ndarray -> ndarray)
    (results r1 : gmap string pyval) (key : string) :
  (forall img, f (f img) = f img) ->
  (forall key, r1 !! key = pad_lookup self f results key) ->
  pad_lookup self f r1 key = r1 !! key.
Proof.
  intros Hf Hr1. unfold pad_lookup at 1. rewrite !Hr1. unfold pad_lookup.
  repeat case_bool_decide; try done.
  destruct (results !! key) as [[]|]; try done.
  do 2 f_equal. rewrite List.map_map. apply map_ext. intros img. apply Hf.
Qed.

(** X4: padding is idempotent.  A padder built by the constructor
    (with a positive divisor when it pads to a multiple) returns, on
    the record of one of its own calls, that same record: the images
    already padded get no further row or column and the two recorded
    keys keep their values. *)
Theorem pad_call_idempotent (size : option (Z * Z)) (size_divisor : option Z)
    (pad_val : Q) (self : PadMultiViewImage.t) (results : gmap string pyval) :
  PadMultiViewImage.__init__ size size_divisor pad_val = Ok self ->
  (forall d, size = None -> size_divisor = Some d -> 0 < d) ->
  pad_input results ->
  exists results',
    PadMultiViewImage.__call__ self results = Ok results'
    /\ PadMultiViewImage.__call__ self results' = Ok results'.
Proof.
  intros Hinit Hd Hin.
  destruct (pad_init_modes _ _ _ _ Hinit) as (_ & Hsz & Hdiv & _).
  assert (Hd0 : size = None -> size_divisor <> Some 0).
  { intros Hs E. specialize (Hd 0 Hs E). lia. }
  pose proof (pad_init_pad_list _ _ _ _ Hinit Hd0) as Hpad.
  destruct (pad_call_lookup self (pad_one self) results Hpad Hin)
    as (r1 & Hcall & Hlook).
  exists r1. split; [done|].
  assert (Hin1 : pad_input r1).
  { destruct Hin as ([imgs Himg] & Hextra & Hori). split; [|split].
    - exists (map (pad_one self) imgs). rewrite Hlook. unfold pad_lookup. simpl.
      by rewrite Himg.
    - unfold image_field. rewrite Hlook. unfold pad_lookup. simpl.
      destruct Hextra as [->|[l ->]]; [by left | right; by eexists].
    - unfold image_field. rewrite Hlook. unfold pad_lookup. simpl.
      destruct Hori as [->|[l ->]]; [by left | right; by eexists]. }
  destruct (pad_call_lookup self (pad_one self) r1 Hpad Hin1)
    as (r2 & Hcall2 & Hlook2).
  rewrite Hcall2. f_equal. apply map_eq. intros key.
  rewrite Hlook2. apply (pad_lookup_idempotent self (pad_one self) results); [|done].
  intros img. apply pad_one_idempotent.
  intros d Hs Hdv. apply (Hd d).
  - rewrite Hsz in Hs. done.
  - rewrite Hdiv in Hdv. rewrite Hsz in Hs. rewrite Hs in Hdv. exact Hdv.
Qed.

(** ** The flipper and its record *)

Lemma imflip_layout (img : ndarray) : same_layout img (mmcv.imflip img).
Proof.
  split; [done|]. unfold dims, mmcv.imflip. simpl.
  rewrite List.map_map. apply map_ext. intros row. apply length_rev.
Qed.

(** X5: the flipper reads ['img'] only when it flips.  On a record
    without ['img'] a call whose sample is below the probability raises
    [KeyError]; a call whose sample is not returns the record with
    ['flip'] set to [False], the generator one sample further. *)
Theorem flip_call_without_img (self : RandomFlip.t) (results : gmap string pyval)
    (g : rng) :
  results !! "img" = None ->
  ((tape g (cursor g) < RandomFlip.prob self)%Q ->
     RandomFlip.__call__ self results g = Raise KeyError)
  /\ ((RandomFlip.prob self <= tape g (cursor g))%Q ->
      RandomFlip.__call__ self results g
      = Ok (<["flip" := VBool false]> results, Rng (tape g) (S (cursor g)))).
Proof.
  intros Hnone. unfold RandomFlip.__call__, random_random, next_sample.
  destruct (Qlt_le_dec (tape g (cursor g)) (RandomFlip.prob self)) as [Hlt|Hge].
  - split.
    + intros _. unfold get_imgs. by rewrite Hnone.
    + intros Hle. exfalso. by eapply Qlt_not_le.
  - split; [|done]. intros Hlt. exfalso. by eapply Qlt_not_le.
Qed.

(** X6: a call of the flipper that returns has read exactly one sample
    of the generator, has added the key ['flip'] and no other, has kept
    every key but ['img'] and ['flip'], and has kept under ['img'] one
    image for every image, each of the element type and the row lengths
    of its original. *)
Theorem flip_call_frame (self : RandomFlip.t) (results results' : gmap string pyval)
    (imgs : list ndarray) (g g' : rng) :
  results !! "img" = Some (VImgs imgs) ->
  RandomFlip.__call__ self results g = Ok (results', g') ->
  g' = Rng (tape g) (S (cursor g))
  /\ dom results' = dom results ∪ {["flip"]}
  /\ (forall key, key <> "img" -> key <> "flip" -> results' !! key = results !! key)
  /\ exists out,
       results' !! "img" = Some (VImgs out) /\ Forall2 same_layout imgs out.
Proof.
  intros Himg. unfold RandomFlip.__call__, random_random, next_sample.
  destruct (Qlt_le_dec (tape g (cursor g)) (RandomFlip.prob self)) as [Hlt|Hge].
  - rewrite (get_imgs_Some _ _ _ Himg). simpl. intros E. injection E as <- <-.
    split; [done|]. split; [|split].
    + rewrite !dom_insert_L.
      assert ("img" ∈ dom results) by (apply elem_of_dom; by eexists).
      apply set_eq. intros key. rewrite !elem_of_union, !elem_of_singleton.
      split; [intros [-> | [-> | ?]]; by auto | intros [? | ->]; by auto].
    + intros key H1 H2. by rewrite !lookup_insert_ne.
    + eexists. split; [by simplify_map_eq|].
      apply Forall2_fmap_r, Forall_Forall2_diag, Forall_forall.
      intros img _. apply imflip_layout.
  - simpl. intros E. injection E as <- <-.
    split; [done|]. split; [|split].
    + rewrite dom_insert_L.
      apply set_eq. intros key. rewrite !elem_of_union, !elem_of_singleton. tauto.
    + intros key H1 H2. by rewrite lookup_insert_ne.
    + exists imgs. split; [by simplify_map_eq|].
      apply Forall_Forall2_diag, Forall_forall. intros img _. apply same_layout_refl.
Qed.

(** X7: the key ['flip'] holds the decision of the last call only.  A
    flipper of probability at least 1, called twice in a row, mirrors
    the images twice, so that the record holds the images it started
    with while ['flip'] says [True]. *)
Theorem flip_twice_restores (self : RandomFlip.t) (results : gmap string pyval)
    (imgs : list ndarray) (g : rng) :
  results !! "img" = Some (VImgs imgs) ->
  unit_tape (tape g) ->
  (1 <= RandomFlip.prob self)%Q ->
  exists r1 r2,
    RandomFlip.__call__ self results g = Ok (r1, Rng (tape g) (S (cursor g)))
    /\ RandomFlip.__call__ self r1 (Rng (tape g) (S (cursor g)))
       = Ok (r2, Rng (tape g) (S (S (cursor g))))
    /\ r1 !! "img" = Some (VImgs (map mmcv.imflip imgs))
    /\ r2 !! "img" = Some (VImgs imgs)
    /\ r2 !! "flip" = Some (VBool true).
Proof.
  intros Himg Hunit Hprob.
  assert (Hflip : forall (r : gmap string pyval) l n,
    r !! "img" = Some (VImgs l) ->
    RandomFlip.__call__ self r (Rng (tape g) n)
    = Ok (<["flip" := VBool true]> (<["img" := VImgs (map mmcv.imflip l)]> r),
          Rng (tape g) (S n))).
  { intros r l n Hr. unfold RandomFlip.__call__, random_random, next_sample. simpl.
    destruct (Qlt_le_dec (tape g n) (RandomFlip.prob self)) as [Hlt|Hge].
    - by rewrite (get_imgs_Some _ _ _ Hr).
    - exfalso. destruct (Hunit n) as [_ Hlt]. apply (Qlt_not_le _ _ Hlt).
      by apply (Qle_trans _ (RandomFlip.prob self)). }
  do 2 eexists.
  split.
  { destruct g as [t c]. simpl in *. by apply Hflip. }
  split; [apply Hflip; by simplify_map_eq|].
  split; [by simplify_map_eq|]. split; [|by simplify_map_eq].
  simplify_map_eq. do 2 f_equal.
  rewrite List.map_map. rewrite <- (map_id imgs) at 2.
  apply map_ext. intros img. apply imflip_involutive.
Qed.

(** ** The normaliser and its record *)

Lemma imnormalize_layout (img : ndarray) (mean std : pixel) (to_rgb : bool) :
  dtype (mmcv.imnormalize img mean std to_rgb) = float32
  /\ dims (mmcv.imnormalize img mean std to_rgb) = dims img.
Proof.
  split; [done|]. unfold dims, mmcv.imnormalize. simpl.
  rewrite List.map_map. apply map_ext. intros row. apply length_map.
Qed.

(** X8: the normaliser raises [KeyError] on a record without ['img'];
    on a record with images it returns, adds the key ['img_norm_cfg']
    and no other, keeps every key but ['img'] and ['img_norm_cfg'], and
    stores one [float32] image for every image, each with the row
    lengths of its original. *)
Theorem normalize_call_frame (self : NormalizeMultiviewImage.t)
    (results : gmap string pyval) :
  (results !! "img" = None ->
     NormalizeMultiviewImage.__call__ self results = Raise KeyError)
  /\ forall imgs, results !! "img" = Some (VImgs imgs) ->
       exists results' out,
         NormalizeMultiviewImage.__call__ self results = Ok results'
         /\ dom results' = dom results ∪ {["img_norm_cfg"]}
         /\ (forall key, key <> "img" -> key <> "img_norm_cfg" ->
               results' !! key = results !! key)
         /\ results' !! "img" = Some (VImgs out)
         /\ Forall2 (fun img o => dtype o = float32 /\ dims o = dims img) imgs out.
Proof.
  unfold NormalizeMultiviewImage.__call__. split.
  - intros Hnone. unfold get_imgs. by rewrite Hnone.
  - intros imgs Himg. rewrite (get_imgs_Some _ _ _ Himg). simpl.
    do 2 eexists. split; [done|]. split; [|split; [|split]].
    + rewrite !dom_insert_L.
      assert ("img" ∈ dom results) by (apply elem_of_dom; by eexists).
      apply set_eq. intros key. rewrite !elem_of_union, !elem_of_singleton.
      split; [intros [-> | [-> | ?]]; by auto | intros [? | ->]; by auto].
    + intros key H1 H2. by rewrite !lookup_insert_ne.
    + by simplify_map_eq.
    + apply Forall2_fmap_r, Forall_Forall2_diag, Forall_forall.
      intros img _. apply imnormalize_layout.
Qed.

(** ** The distorter and the generator *)

Section Draws.

Variables bgr2hsv_px hsv2bgr_px : pixel -> pixel.

(** One image: between 6 and 11 samples are read, in order. *)
Lemma distort_cursor (self : PhotoMetricDistortionMultiViewImage.t)
    (img : ndarray) (g : rng) :
  let g' := snd (PhotoMetricDistortionMultiViewImage.distort
                   bgr2hsv_px hsv2bgr_px self img g) in
  tape g' = tape g
  /\ (cursor g + 6 <= cursor g')%nat /\ (cursor g' <= cursor g + 11)%nat.
Proof.
  unfold PhotoMetricDistortionMultiViewImage.distort,
    PhotoMetricDistortionMultiViewImage.random_contrast,
    random_randint2, random_uniform, random_permutation3, next_sample.
  simpl.
  repeat match goal with
  | |- context [Qlt_le_dec ?a ?b] => destruct (Qlt_le_dec a b)
  | |- context [PhotoMetricDistortionMultiViewImage.use_swap_channel ?s] =>
      destruct (PhotoMetricDistortionMultiViewImage.use_swap_channel s)
  end; simpl; repeat split; lia.
Qed.

Lemma distort_all_cursor (self : PhotoMetricDistortionMultiViewImage.t)
    (imgs out : list ndarray) (g g' : rng) :
  PhotoMetricDistortionMultiViewImage.distort_all bgr2hsv_px hsv2bgr_px self imgs g
  = Ok (out, g') ->
  tape g' = tape g
  /\ (cursor g + 6 * length imgs <= cursor g')%nat
  /\ (cursor g' <= cursor g + 11 * length imgs)%nat.
Proof.
  revert out g g'. induction imgs as [|img imgs IH]; intros out g g'; simpl.
  - intros E. injection E as <- <-. repeat split; lia.
  - destruct (np_dtype_eqb (dtype img) float32); [|discriminate].
    pose proof (distort_cursor self img g) as Hc.
    destruct (PhotoMetricDistortionMultiViewImage.distort _ _ self img g) as [img' g1].
    simpl in Hc. destruct Hc as (Ht & Hlo & Hhi).
    intros E. apply bind_Ok in E as ([rest g2] & Hrest & E).
    simpl in E. injection E as <- <-.
    destruct (IH _ _ _ Hrest) as (Ht2 & Hlo2 & Hhi2).
    split; [congruence|]. split; lia.
Qed.

End Draws.

(** X9: every image gets draws of its own.  A call of the distorter
    that returns has read, from the cursor on and without a gap, at
    least 6 and at most 11 samples for every image of the list, and the
    tape itself is as it was. *)
Theorem photometric_draw_count (bgr2hsv_px hsv2bgr_px : pixel -> pixel)
    (self : PhotoMetricDistortionMultiViewImage.t)
    (results results' : gmap string pyval) (imgs : list ndarray) (g g' : rng) :
  results !! "img" = Some (VImgs imgs) ->
  PhotoMetricDistortionMultiViewImage.__call__ bgr2hsv_px hsv2bgr_px self results g
  = Ok (results', g') ->
  tape g' = tape g
  /\ (cursor g + 6 * length imgs <= cursor g')%nat
  /\ (cursor g' <= cursor g + 11 * length imgs)%nat.
Proof.
  intros Himg. unfold PhotoMetricDistortionMultiViewImage.__call__.
  rewrite (get_imgs_Some _ _ _ Himg). simpl. intros E.
  apply bind_Ok in E as ([out g1] & Hall & E). simpl in E. injection E as <- <-.
  by eapply distort_all_cursor.
Qed.

(** X10: the call of the distorter raises [KeyError] on a record
    without ['img'], and a call that returns has changed no key but
    ['img'] and has added none. *)
Theorem photometric_call_frame (bgr2hsv_px hsv2bgr_px : pixel -> pixel)
    (self : PhotoMetricDistortionMultiViewImage.t)
    (results : gmap string pyval) (g : rng) :
  (results !! "img" = None ->
     PhotoMetricDistortionMultiViewImage.__call__ bgr2hsv_px hsv2bgr_px self results g
     = Raise KeyError)
  /\ forall results' g',
       PhotoMetricDistortionMultiViewImage.__call__ bgr2hsv_px hsv2bgr_px self results g
       = Ok (results', g') ->
       dom results' = dom results
       /\ forall key, key <> "img" -> results' !! key = results !! key.
Proof.
  unfold PhotoMetricDistortionMultiViewImage.__call__. split.
  - intros Hnone. unfold get_imgs. by rewrite Hnone.
  - intros results' g' E.
    apply bind_Ok in E as (imgs & Himg & E).
    apply bind_Ok in E as ([out g1] & _ & E). simpl in E. injection E as <- <-.
    assert ("img" ∈ dom results).
    { apply elem_of_dom. unfold get_imgs in Himg.
      destruct (results !! "img"); [by eexists | discriminate]. }
    split.
    + rewrite dom_insert_L. apply set_eq. intros key.
      rewrite elem_of_union, elem_of_singleton.
      split; [intros [-> | ?]; by auto | by auto].
    + intros key Hkey. by rewrite lookup_insert_ne.
Qed.

Section Tails.

Variables bgr2hsv_px hsv2bgr_px : pixel -> pixel.

(** With every coin at 0 an image is only converted and converted
    back, and six samples are read. *)
Lemma distort_all_tails (self : PhotoMetricDistortionMultiViewImage.t)
    (img : ndarray) (g : rng) :
  (forall n, (tape g n < 1 # 2)%Q) ->
  PhotoMetricDistortionMultiViewImage.distort bgr2hsv_px hsv2bgr_px self img g
  = (PhotoMetricDistortionMultiViewImage.hsv2bgr hsv2bgr_px
       (PhotoMetricDistortionMultiViewImage.bgr2hsv bgr2hsv_px img),
     Rng (tape g) (cursor g + 6)).
Proof.
  intros Htails.
  assert (Hcoin : forall n, random_randint2 (Rng (tape g) n)
                            = (false, Rng (tape g) (S n))).
  { intros n. unfold random_randint2, next_sample. simpl.
    destruct (Qlt_le_dec (tape g n) (1 # 2)) as [_|Hge]; [done|].
    exfalso. by apply (Qlt_not_le _ _ (Htails n)). }
  unfold PhotoMetricDistortionMultiViewImage.distort,
    PhotoMetricDistortionMultiViewImage.random_contrast.
  destruct g as [t c]. cbn [tape cursor] in *.
  repeat (rewrite Hcoin; cbv beta iota zeta).
  do 2 f_equal. lia.
Qed.

Lemma distort_all_list_tails (self : PhotoMetricDistortionMultiViewImage.t)
    (imgs : list ndarray) (g : rng) :
  (forall n, (tape g n < 1 # 2)%Q) ->
  Forall (fun img => dtype img = float32) imgs ->
  PhotoMetricDistortionMultiViewImage.distort_all bgr2hsv_px hsv2bgr_px self imgs g
  = Ok (map (fun img => PhotoMetricDistortionMultiViewImage.hsv2bgr hsv2bgr_px
                          (PhotoMetricDistortionMultiViewImage.bgr2hsv bgr2hsv_px img))
          imgs,
        Rng (tape g) (cursor g + 6 * length imgs)).
Proof.
  intros Htails Hall. revert g Htails.
  induction Hall as [|img imgs Hdt _ IH]; intros g Htails;
    cbn [PhotoMetricDistortionMultiViewImage.distort_all].
  - destruct g as [t c]. cbn [tape cursor length map].
    by rewrite Nat.mul_0_r, Nat.add_0_r.
  - rewrite Hdt. cbn [np_dtype_eqb]. rewrite distort_all_tails by done.
    rewrite IH by done. cbn [bind fst snd tape cursor map length].
    replace (cursor g + 6 + 6 * length imgs)%nat
      with (cursor g + 6 * S (length imgs))%nat by lia.
    done.
Qed.

Lemma map_px_id (f : pixel -> pixel) (img : ndarray) :
  (forall p, f p = p) -> map_px f img = img.
Proof.
  intros Hf. destruct img as [dt rs]. unfold map_px. simpl. f_equal.
  rewrite <- (map_id rs) at 2. apply map_ext. intros row.
  rewrite <- (map_id row) at 2. by apply map_ext.
Qed.

End Tails.

(** X11: when every coin of the generator falls on 0 (every sample is
    below 1/2) the distorter perturbs nothing: each [float32] image is
    converted to HSV and back and six samples are read for it; with
    conversions that undo each other the call returns the record it was
    given. *)
Theorem photometric_all_tails (bgr2hsv_px hsv2bgr_px : pixel -> pixel)
    (self : PhotoMetricDistortionMultiViewImage.t)
    (results : gmap string pyval) (imgs : list ndarray) (g : rng) :
  results !! "img" = Some (VImgs imgs) ->
  (forall img, img ∈ imgs -> dtype img = float32) ->
  (forall n, (tape g n < 1 # 2)%Q) ->
  PhotoMetricDistortionMultiViewImage.__call__ bgr2hsv_px hsv2bgr_px self results g
  = Ok (<["img" := VImgs
            (map (fun img => PhotoMetricDistortionMultiViewImage.hsv2bgr hsv2bgr_px
                               (PhotoMetricDistortionMultiViewImage.bgr2hsv bgr2hsv_px img))
               imgs)]> results,
        Rng (tape g) (cursor g + 6 * length imgs))
  /\ ((forall p, hsv2bgr_px (bgr2hsv_px p) = p) ->
      PhotoMetricDistortionMultiViewImage.__call__ bgr2hsv_px hsv2bgr_px self results g
      = Ok (results, Rng (tape g) (cursor g + 6 * length imgs))).
Proof.
  intros Himg Hall Htails.
  assert (Hcall : PhotoMetricDistortionMultiViewImage.__call__
                    bgr2hsv_px hsv2bgr_px self results g
    = Ok (<["img" := VImgs
              (map (fun img => PhotoMetricDistortionMultiViewImage.hsv2bgr hsv2bgr_px
                                 (PhotoMetricDistortionMultiViewImage.bgr2hsv bgr2hsv_px img))
                 imgs)]> results,
          Rng (tape g) (cursor g + 6 * length imgs))).
  { unfold PhotoMetricDistortionMultiViewImage.__call__.
    rewrite (get_imgs_Some _ _ _ Himg). simpl.
    rewrite distort_all_list_tails; [done | done | by apply Forall_forall]. }
  split; [done|]. intros Hinv. rewrite Hcall. do 2 f_equal.
  apply insert_id. rewrite Himg. do 2 f_equal.
  rewrite <- (map_id imgs) at 1. apply map_ext. intros img.
  unfold PhotoMetricDistortionMultiViewImage.hsv2bgr,
    PhotoMetricDistortionMultiViewImage.bgr2hsv.
  destruct img as [dt rs]. unfold map_px. simpl. f_equal.
  rewrite List.map_map. rewrite <- (map_id rs) at 1. apply map_ext. intros row.
  rewrite List.map_map. rewrite <- (map_id row) at 1. apply map_ext. intros p.
  by rewrite Hinv.
Qed.

(** X12: the hue step turns the hue by the offset, modulo 360, and
    touches nothing else: at every coordinate the new hue is the old
    hue plus the offset, or that sum less 360, or that sum plus 360, and
    the saturation and the value of the pixel are as they were. *)
Theorem random_hue_turns_modulo_360 (offset : Q) (img : ndarray) (r c : nat) (p : pixel) :
  at_px img r c = Some p ->
  exists p',
    at_px (PhotoMetricDistortionMultiViewImage.random_hue offset img) r c = Some p'
    /\ channel C1 p' = channel C1 p
    /\ channel C2 p' = channel C2 p
    /\ ((hue p' == hue p + offset)%Q
        \/ (hue p' == hue p + offset - 360)%Q
        \/ (hue p' == hue p + offset + 360)%Q).
Proof.
  intros Hat.
  unfold PhotoMetricDistortionMultiViewImage.random_hue,
    PhotoMetricDistortionMultiViewImage.hue_wrap_low,
    PhotoMetricDistortionMultiViewImage.hue_wrap_high,
    PhotoMetricDistortionMultiViewImage.hue_add, map_px, at_px in *.
  simpl. rewrite !List.map_map, list_lookup_fmap.
  destruct (rows img !! r) as [row|]; simpl in *; [|discriminate].
  rewrite !List.map_map, list_lookup_fmap, Hat. simpl.
  eexists. split; [done|].
  destruct p as [[h s] v]. unfold hue. simpl.
  split; [done|]. split; [done|].
  destruct (Qlt_le_dec 360 (h + offset)) as [Hhi|Hhi].
  - destruct (Qlt_le_dec (h + offset - 360) 0) as [Hlo|Hlo].
    + left. lra.
    + right. left. lra.
  - destruct (Qlt_le_dec (h + offset) 0) as [Hlo|Hlo].
    + right. right. lra.
    + left. lra.
Qed.

(** ** The rescaler: construction *)

(** X13: the constructor of the rescaler fails with [AssertionError]
    on a random range that has not two entries or comes with a
    reference focal length; otherwise on an empty scale list without a
    pad rate (its default arguments) it fails with [IndexError], the
    first scale being read before the length is asserted; otherwise it
    fails with [AssertionError] unless there is exactly one scale, and
    with exactly one scale it succeeds, the pad rate defaulting to that
    scale twice.  The pad rate given is stored unchecked. *)
Theorem rescale_init_contract (scales : list Q) (ref_focal_len : option Q)
    (random_scale pad_scale_rate : option (list Q)) :
  (~ random_scale_ok ref_focal_len random_scale ->
     RandomScaleImageMultiViewImage.__init__ scales ref_focal_len random_scale
       pad_scale_rate = Raise AssertionError)
  /\ (random_scale_ok ref_focal_len random_scale ->
      (scales = [] -> pad_scale_rate = None ->
         RandomScaleImageMultiViewImage.__init__ scales ref_focal_len random_scale
           pad_scale_rate = Raise IndexError)
      /\ (length scales <> 1%nat -> scales <> [] \/ pad_scale_rate <> None ->
            RandomScaleImageMultiViewImage.__init__ scales ref_focal_len random_scale
              pad_scale_rate = Raise AssertionError)
      /\ (forall s, scales = [s] ->
            RandomScaleImageMultiViewImage.__init__ scales ref_focal_len random_scale
              pad_scale_rate
            = Ok {| RandomScaleImageMultiViewImage.scales := [s];
                    RandomScaleImageMultiViewImage.ref_focal_len := ref_focal_len;
                    RandomScaleImageMultiViewImage.random_scale := random_scale;
                    RandomScaleImageMultiViewImage.pad_scale_rate :=
                      match pad_scale_rate with
                      | Some p => p
                      | None => [s; s]
                      end |})).
Proof.
  unfold RandomScaleImageMultiViewImage.__init__, random_scale_ok.
  split.
  - intros Hbad. destruct random_scale as [rs|]; [|by destruct Hbad].
    destruct (Nat.eqb_spec (length rs) 2) as [Hl|Hl]; simpl.
    + case_bool_decide; [by destruct Hbad | done].
    + done.
  - intros Hok.
    assert (Hfirst :
      match random_scale with
      | Some rs =>
          if (length rs =? 2)%nat && bool_decide (ref_focal_len = None)
          then Ok tt else Raise AssertionError
      | None => Ok tt
      end = Ok tt).
    { destruct random_scale as [rs|]; [|done]. destruct Hok as [-> ->]. done. }
    rewrite Hfirst. simpl. split; [|split].
    + by intros -> ->.
    + intros Hlen Hsome.
      destruct pad_scale_rate as [p|]; simpl.
      * destruct (Nat.eqb_spec (length scales) 1); done.
      * destruct scales as [|s [|s' rest]]; simpl in *; try done.
        by destruct Hsome.
    + intros s ->. by destruct pad_scale_rate.
Qed.

(** ** The rescaler: lists that do not match *)

Lemma sizes_length_min (dim : ndarray -> nat) (imgs : list ndarray) (scales : list Q) :
  length (RandomScaleImageMultiViewImage.sizes dim imgs scales)
  = Nat.min (length imgs) (length scales).
Proof. unfold RandomScaleImageMultiViewImage.sizes. apply length_zip_with. Qed.

Lemma resize_targets_short (imgs : list ndarray) (x_size y_size : list Z) (idx : nat) :
  length y_size = length x_size ->
  (idx <= length x_size)%nat ->
  (length x_size < idx + length imgs)%nat ->
  RandomScaleImageMultiViewImage.resize_targets idx imgs x_size y_size
  = Raise IndexError.
Proof.
  intros Hy. revert idx. induction imgs as [|img imgs IH]; intros idx Hle Hlt; simpl in *.
  - lia.
  - destruct (x_size !! idx) as [x|] eqn:Ex.
    + rewrite (index_Some _ _ _ Ex). simpl.
      apply lookup_lt_Some in Ex.
      destruct (lookup_lt_is_Some_2 y_size idx) as [y Ey]; [lia|].
      rewrite (index_Some _ _ _ Ey). simpl.
      rewrite IH by lia. done.
    + unfold index. by rewrite Ex.
Qed.

(** X14: in the focal-length mode the scales are counted by the
    cameras of the calibration, not by the images: with fewer focal
    lengths than images the call raises [IndexError] when it reads the
    size of the first image that has no scale. *)
Theorem rescale_focal_too_few (interp : ndarray -> nat -> nat -> nat -> nat -> pixel)
    (self : RandomScaleImageMultiViewImage.t) (results : gmap string pyval) (g : rng)
    (imgs : list ndarray) (s ref p0 p1 : Q)
    (intrinsic : list (list (list Q))) (lens : list Q) :
  RandomScaleImageMultiViewImage.ref_focal_len self = Some ref ->
  RandomScaleImageMultiViewImage.scales self = [s] ->
  RandomScaleImageMultiViewImage.pad_scale_rate self = [p0; p1] ->
  ~ (p0 == 0)%Q -> ~ (p1 == 0)%Q ->
  results !! "img" = Some (VImgs imgs) ->
  results !! "metas" = Some (VMetas intrinsic) ->
  Forall2 (fun m f => exists row rest, m = (f :: row) :: rest /\ ~ (f == 0)%Q)
    intrinsic lens ->
  (length lens < length imgs)%nat ->
  RandomScaleImageMultiViewImage.__call__ interp self results g = Raise IndexError.
Proof.
  intros Href Hs Hpad Hn0 Hn1 Himg Hmetas Hlens Hshort.
  unfold RandomScaleImageMultiViewImage.__call__.
  rewrite (effective_scales_focal self results g s ref intrinsic lens) by done.
  simpl.
  rewrite (ratios_nonzero self 1 p1); [|by rewrite Hpad|done]. simpl.
  rewrite (ratios_nonzero self 0 p0); [|by rewrite Hpad|done]. simpl.
  rewrite (get_imgs_Some _ _ imgs) by (by rewrite !lookup_insert_ne).
  simpl. rewrite resize_targets_short; [done| | |].
  - by rewrite !sizes_length_min.
  - lia.
  - rewrite sizes_length_min, length_map. lia.
Qed.

(** X15: the pad rate is not checked by the constructor, and a call
    reads its two entries once for every scale: with a pad rate of
    fewer than two entries the plain mode raises [IndexError] as soon
    as there is an image, and returns on an empty image list, where no
    entry is read. *)
Theorem rescale_short_pad_rate (interp : ndarray -> nat -> nat -> nat -> nat -> pixel)
    (self : RandomScaleImageMultiViewImage.t) (results : gmap string pyval) (g : rng)
    (imgs : list ndarray) (s : Q) (pad : list Q) :
  RandomScaleImageMultiViewImage.__init__ [s] None None (Some pad) = Ok self ->
  (length pad < 2)%nat ->
  results !! "img" = Some (VImgs imgs) ->
  (imgs <> [] ->
     RandomScaleImageMultiViewImage.__call__ interp self results g = Raise IndexError)
  /\ (imgs = [] ->
      RandomScaleImageMultiViewImage.__call__ interp self results g
      = Ok (<["img" := VImgs []]>
              (<["focal_ratios_y" := VFloats []]>
                 (<["focal_ratios_x" := VFloats []]> results)), g)).
Proof.
  intros Hinit Hlen Himg. injection Hinit as <-.
  unfold RandomScaleImageMultiViewImage.__call__.
  rewrite (effective_scales_fixed _ results g imgs s) by done. simpl.
  split.
  - intros Hne. destruct imgs as [|img imgs]; [done|].
    destruct pad as [|p [|p' rest]]; simpl in Hlen; [done | done | lia].
  - intros ->. simpl. unfold get_imgs.
    rewrite !lookup_insert_ne by done. by rewrite Himg.
Qed.

(** ** The rescaler: sizes *)

Lemma py_int_whole_number (x : Q) (m : Z) :
  0 <= m -> (x == inject_Z m)%Q -> py_int x = m.
Proof.
  intros Hm E. rewrite py_int_floor.
  - by rewrite (Qfloor_comp _ _ E), Qfloor_Z.
  - rewrite E. change 0%Q with (inject_Z 0). by rewrite <- Zle_Qle.
Qed.

Lemma float_mul_shrinks (n : nat) (s : Q) :
  (0 <= s)%Q -> (s <= 1)%Q -> Z.of_nat n <= 2 ^ 53 ->
  0 <= py_int (float_mul (inject_Z (Z.of_nat n)) s) <= Z.of_nat n.
Proof.
  intros H0 H1 Hn. unfold float_mul.
  assert (Hn0 : (0 <= inject_Z (Z.of_nat n))%Q).
  { change 0%Q with (inject_Z 0). rewrite <- Zle_Qle. lia. }
  pose proof (round_double_whole (Z.of_nat n) ltac:(lia)) as En.
  pose proof (round_double_nonneg s H0) as Hs0.
  pose proof (round_double_le_whole s 1 ltac:(lia) H1) as Hs1.
  change (inject_Z 1) with 1%Q in Hs1.
  set (a := round_double (inject_Z (Z.of_nat n))) in *.
  set (b := round_double s) in *.
  assert (Hp0 : (0 <= a * b)%Q) by nra.
  assert (Hp1 : (a * b <= inject_Z (Z.of_nat n))%Q) by nra.
  pose proof (round_double_nonneg _ Hp0) as Hr0.
  pose proof (round_double_le_whole _ (Z.of_nat n) ltac:(lia) Hp1) as Hr1.
  rewrite py_int_floor by done. split.
  - rewrite <- (Qfloor_Z 0). by apply Qfloor_resp_le.
  - etransitivity; [apply Qfloor_resp_le, Hr1|]. by rewrite Qfloor_Z.
Qed.

Lemma float_mul_whole (n k : Z) :
  0 <= n -> 0 <= k -> n * k <= 2 ^ 53 ->
  py_int (float_mul (inject_Z n) (inject_Z k)) = n * k.
Proof.
  intros Hn Hk Hnk. unfold float_mul.
  destruct (Z.eq_dec n 0) as [->|Hn0].
  { rewrite (round_double_0 (round_double (inject_Z 0) * _)); [done|].
    change (round_double (inject_Z 0)) with 0%Q. ring. }
  destruct (Z.eq_dec k 0) as [->|Hk0].
  { rewrite (round_double_0 (_ * round_double (inject_Z 0)));
      [change (py_int 0) with 0; lia|].
    change (round_double (inject_Z 0)) with 0%Q. ring. }
  pose proof (round_double_whole n ltac:(nia)) as En.
  pose proof (round_double_whole k ltac:(nia)) as Ek.
  apply py_int_whole_number; [nia|].
  rewrite (round_double_comp _ (inject_Z (n * k))).
  - apply round_double_whole. nia.
  - by rewrite En, Ek, inject_Z_mult.
Qed.

(** The images a call stores, one by one. *)
Lemma rescale_call_out (interp : ndarray -> nat -> nat -> nat -> nat -> pixel)
    (self : RandomScaleImageMultiViewImage.t)
    (results results1 : gmap string pyval) (g g1 : rng)
    (imgs : list ndarray) (rand_scales : list Q) (p0 p1 : Q) :
  results !! "img" = Some (VImgs imgs) ->
  RandomScaleImageMultiViewImage.effective_scales self results g
  = Ok (rand_scales, results1, g1) ->
  (length imgs <= length rand_scales)%nat ->
  RandomScaleImageMultiViewImage.pad_scale_rate self !! 0%nat = Some p0 ->
  RandomScaleImageMultiViewImage.pad_scale_rate self !! 1%nat = Some p1 ->
  ~ (p0 == 0)%Q -> ~ (p1 == 0)%Q ->
  exists results' out,
    RandomScaleImageMultiViewImage.__call__ interp self results g = Ok (results', g1)
    /\ results' !! "img" = Some (VImgs out)
    /\ Forall2 (fun img o => exists s, s ∈ rand_scales
         /\ o = mmcv.imresize interp img
                  (py_int (float_mul (inject_Z (Z.of_nat (shape1 img))) s),
                   py_int (float_mul (inject_Z (Z.of_nat (shape0 img))) s))) imgs out.
Proof.
  intros Himg Heff Hlen Hp0 Hp1 Hn0 Hn1.
  do 2 eexists. split; [by eapply rescale_call|].
  split; [by simplify_map_eq|].
  apply Forall2_same_length_lookup. split.
  - rewrite !length_zip_with, !sizes_length by done. lia.
  - intros i img o Hi Ho.
    destruct (lookup_lt_is_Some_2 rand_scales i) as [s Hs].
    { apply lookup_lt_Some in Hi. lia. }
    exists s. split; [by eapply list_elem_of_lookup_2|].
    rewrite lookup_zip_with, Hi in Ho. simpl in Ho.
    rewrite lookup_zip_with in Ho.
    rewrite (sizes_lookup shape1 _ _ _ _ _ Hi Hs) in Ho. simpl in Ho.
    rewrite (sizes_lookup shape0 _ _ _ _ _ Hi Hs) in Ho. simpl in Ho.
    by injection Ho as <-.
Qed.

(** X16: a scale between 0 and 1 never enlarges.  When every effective
    scale of a call lies in [[0, 1]], every image stored has at most
    the rows and at most the columns of its original.  The dimensions
    of the images are numbers a double holds exactly, at most
    [2 ** 53]. *)
Theorem rescale_never_enlarges (interp : ndarray -> nat -> nat -> nat -> nat -> pixel)
    (self : RandomScaleImageMultiViewImage.t)
    (results results1 : gmap string pyval) (g g1 : rng)
    (imgs : list ndarray) (rand_scales : list Q) (p0 p1 : Q) :
  results !! "img" = Some (VImgs imgs) ->
  RandomScaleImageMultiViewImage.effective_scales self results g
  = Ok (rand_scales, results1, g1) ->
  (length imgs <= length rand_scales)%nat ->
  RandomScaleImageMultiViewImage.pad_scale_rate self !! 0%nat = Some p0 ->
  RandomScaleImageMultiViewImage.pad_scale_rate self !! 1%nat = Some p1 ->
  ~ (p0 == 0)%Q -> ~ (p1 == 0)%Q ->
  (forall s, s ∈ rand_scales -> (0 <= s)%Q /\ (s <= 1)%Q) ->
  (forall img, img ∈ imgs ->
     Z.of_nat (shape0 img) <= 2 ^ 53 /\ Z.of_nat (shape1 img) <= 2 ^ 53) ->
  exists results' out,
    RandomScaleImageMultiViewImage.__call__ interp self results g = Ok (results', g1)
    /\ results' !! "img" = Some (VImgs out)
    /\ Forall2 (fun img o => exists h w,
         has_shape o h w /\ (h <= shape0 img)%nat /\ (w <= shape1 img)%nat) imgs out.
Proof.
  intros Himg Heff Hlen Hp0 Hp1 Hn0 Hn1 Hscales Hdims.
  destruct (rescale_call_out interp self results results1 g g1 imgs rand_scales p0 p1)
    as (results' & out & Hcall & Hout & Hall); try done.
  exists results', out. split; [done|]. split; [done|].
  apply Forall2_same_length_lookup. split; [by eapply Forall2_length|].
  intros i img o Hi Ho.
  destruct (Forall2_lookup_lr _ _ _ _ _ _ Hall Hi Ho) as (s & Hs & ->).
  destruct (Hscales s Hs) as [H0 H1].
  destruct (Hdims img (list_elem_of_lookup_2 _ _ _ Hi)) as [Hd0 Hd1].
  do 2 eexists. split; [apply imresize_has_shape|].
  pose proof (float_mul_shrinks (shape0 img) s H0 H1 Hd0).
  pose proof (float_mul_shrinks (shape1 img) s H0 H1 Hd1).
  split; lia.
Qed.

(** X17: a whole-number scale multiplies the size exactly.  A rescaler
    built with the one scale [k], a positive whole number, and nothing
    else stores for every image one of [k] times its rows and [k] times
    its columns; the scale 1 keeps the size.  The dimensions of the
    images stored are numbers a double holds exactly, at most
    [2 ** 53]. *)
Theorem rescale_whole_scale (interp : ndarray -> nat -> nat -> nat -> nat -> pixel)
    (self : RandomScaleImageMultiViewImage.t) (results : gmap string pyval) (g : rng)
    (imgs : list ndarray) (k : nat) :
  (0 < k)%nat ->
  RandomScaleImageMultiViewImage.__init__ [inject_Z (Z.of_nat k)] None None None
  = Ok self ->
  results !! "img" = Some (VImgs imgs) ->
  (forall img, img ∈ imgs ->
     Z.of_nat (shape0 img * k) <= 2 ^ 53 /\ Z.of_nat (shape1 img * k) <= 2 ^ 53) ->
  exists results' out,
    RandomScaleImageMultiViewImage.__call__ interp self results g = Ok (results', g)
    /\ results' !! "img" = Some (VImgs out)
    /\ Forall2 (fun img o => has_shape o (shape0 img * k) (shape1 img * k)) imgs out.
Proof.
  intros Hk Hinit Himg Hdims. injection Hinit as <-.
  assert (Hnz : ~ (inject_Z (Z.of_nat k) == 0)%Q).
  { intros E. unfold Qeq, inject_Z in E. simpl in E. lia. }
  destruct (rescale_call_out interp
              {| RandomScaleImageMultiViewImage.scales := [inject_Z (Z.of_nat k)];
                 RandomScaleImageMultiViewImage.ref_focal_len := None;
                 RandomScaleImageMultiViewImage.random_scale := None;
                 RandomScaleImageMultiViewImage.pad_scale_rate :=
                   [inject_Z (Z.of_nat k); inject_Z (Z.of_nat k)] |}
              results results g g imgs
              (replicate (length imgs) (inject_Z (Z.of_nat k)))
              (inject_Z (Z.of_nat k)) (inject_Z (Z.of_nat k)))
    as (results' & out & Hcall & Hout & Hall); try done.
  { by apply effective_scales_fixed. }
  { by rewrite length_replicate. }
  exists results', out. split; [done|]. split; [done|].
  apply Forall2_same_length_lookup. split; [by eapply Forall2_length|].
  intros i img o Hi Ho.
  destruct (Forall2_lookup_lr _ _ _ _ _ _ Hall Hi Ho) as (s & Hs & ->).
  apply elem_of_replicate in Hs as [-> _].
  destruct (Hdims img (list_elem_of_lookup_2 _ _ _ Hi)) as [Hd0 Hd1].
  rewrite !float_mul_whole by lia.
  replace (shape0 img * k)%nat with (Z.to_nat (Z.of_nat (shape0 img) * Z.of_nat k)) by lia.
  replace (shape1 img * k)%nat with (Z.to_nat (Z.of_nat (shape1 img) * Z.of_nat k)) by lia.
  apply imresize_has_shape.
Qed.

(** ** The rescaler, the generator and the record *)

Lemma np_random_rand_rng (n : nat) (g : rng) :
  snd (np_random_rand n g) = Rng (tape g) (cursor g + n).
Proof.
  revert g. induction n as [|n IH]; intros g; simpl.
  - destruct g as [t c]. simpl. by rewrite Nat.add_0_r.
  - specialize (IH (Rng (tape g) (S (cursor g)))).
    destruct (np_random_rand n _) as [us g']. simpl in *. rewrite IH.
    f_equal. lia.
Qed.

Lemma np_random_rand_unit (n : nat) (g : rng) :
  unit_tape (tape g) ->
  Forall (fun u => (0 <= u)%Q /\ (u < 1)%Q) (fst (np_random_rand n g)).
Proof.
  revert g. induction n as [|n IH]; intros g Hunit; simpl; [constructor|].
  specialize (IH (Rng (tape g) (S (cursor g))) Hunit).
  destruct (np_random_rand n _) as [us g']. simpl in *.
  constructor; [apply Hunit | done].
Qed.

Lemma rescale_call_inv (interp : ndarray -> nat -> nat -> nat -> nat -> pixel)
    (self : RandomScaleImageMultiViewImage.t)
    (results results' : gmap string pyval) (g g' : rng) :
  RandomScaleImageMultiViewImage.__call__ interp self results g = Ok (results', g') ->
  exists rand_scales results1 fx fy out,
    RandomScaleImageMultiViewImage.effective_scales self results g
    = Ok (rand_scales, results1, g')
    /\ results' = <["img" := VImgs out]>
                    (<["focal_ratios_y" := VFloats fy]>
                       (<["focal_ratios_x" := VFloats fx]> results1)).
Proof.
  unfold RandomScaleImageMultiViewImage.__call__. intros E.
  apply bind_Ok in E as ([[sc r1] g1] & Heff & E).
  apply bind_Ok in E as (fx & _ & E). apply bind_Ok in E as (fy & _ & E).
  apply bind_Ok in E as (imgs & _ & E). apply bind_Ok in E as (targets & _ & E).
  injection E as <- <-.
  by exists sc, r1, fx, fy, (zip_with (mmcv.imresize interp) imgs targets).
Qed.

Lemma effective_scales_no_sample (self : RandomScaleImageMultiViewImage.t)
    (results results1 : gmap string pyval) (g g1 : rng) (rand_scales : list Q) :
  RandomScaleImageMultiViewImage.random_scale self = None ->
  RandomScaleImageMultiViewImage.effective_scales self results g
  = Ok (rand_scales, results1, g1) ->
  g1 = g.
Proof.
  intros Hrs. unfold RandomScaleImageMultiViewImage.effective_scales. rewrite Hrs.
  destruct (RandomScaleImageMultiViewImage.ref_focal_len self) as [ref|]; intros E.
  - apply bind_Ok in E as (lens & _ & E). apply bind_Ok in E as (fr & _ & E).
    apply bind_Ok in E as (sc & _ & E). by injection E as <- <- <-.
  - apply bind_Ok in E as (imgs & _ & E). by injection E as <- <- <-.
Qed.

(** X18: only the random-ratio mode uses the generator.  A call of a
    rescaler without a random range, plain or focal, returns the
    generator it was given; and whatever the mode, a call that returns
    has changed no key of the record but ['img'], ['focal_ratios'],
    ['focal_ratios_x'] and ['focal_ratios_y']. *)
Theorem rescale_call_frame (interp : ndarray -> nat -> nat -> nat -> nat -> pixel)
    (self : RandomScaleImageMultiViewImage.t)
    (results results' : gmap string pyval) (g g' : rng) :
  RandomScaleImageMultiViewImage.__call__ interp self results g = Ok (results', g') ->
  (RandomScaleImageMultiViewImage.random_scale self = None -> g' = g)
  /\ tape g' = tape g
  /\ forall key,
       key ∉ ["img"; "focal_ratios"; "focal_ratios_x"; "focal_ratios_y"] ->
       results' !! key = results !! key.
Proof.
  intros Hcall.
  apply rescale_call_inv in Hcall as (sc & r1 & fx & fy & out & Heff & ->).
  split; [|split].
  - intros Hrs. by eapply effective_scales_no_sample.
  - destruct (RandomScaleImageMultiViewImage.random_scale self) as [rs|] eqn:Hrs.
    + unfold RandomScaleImageMultiViewImage.effective_scales in Heff.
      rewrite Hrs in Heff.
      destruct (RandomScaleImageMultiViewImage.ref_focal_len self) as [ref|].
      * apply bind_Ok in Heff as (lens & _ & E). apply bind_Ok in E as (fr & _ & E).
        apply bind_Ok in E as (sc' & _ & E). by injection E as <- <- <-.
      * apply bind_Ok in Heff as (imgs & _ & E).
        pose proof (np_random_rand_rng (length imgs) g) as Hg.
        destruct (np_random_rand (length imgs) g) as [us g2]. simpl in Hg.
        apply bind_Ok in E as (hi & _ & E). apply bind_Ok in E as (lo & _ & E).
        apply bind_Ok in E as (sc' & _ & E). injection E as <- <- <-.
        by rewrite Hg.
    + by rewrite (effective_scales_no_sample _ _ _ _ _ _ Hrs Heff).
  - intros key Hkey.
    rewrite !elem_of_cons, elem_of_nil in Hkey.
    rewrite !lookup_insert_ne by naive_solver.
    apply (effective_scales_img _ _ _ _ _ _ _ Heff). naive_solver.
Qed.

(** X19: the key a mode reads first decides the error on a record that
    lacks it.  Without a reference focal length the call raises
    [KeyError] when ['img'] is missing; with one it raises [KeyError]
    when ['metas'] is missing, whether or not the images are there. *)
Theorem rescale_missing_key (interp : ndarray -> nat -> nat -> nat -> nat -> pixel)
    (self : RandomScaleImageMultiViewImage.t) (results : gmap string pyval) (g : rng) :
  (RandomScaleImageMultiViewImage.ref_focal_len self = None ->
   results !! "img" = None ->
   RandomScaleImageMultiViewImage.__call__ interp self results g = Raise KeyError)
  /\ (RandomScaleImageMultiViewImage.ref_focal_len self <> None ->
      results !! "metas" = None ->
      RandomScaleImageMultiViewImage.__call__ interp self results g = Raise KeyError).
Proof.
  unfold RandomScaleImageMultiViewImage.__call__,
    RandomScaleImageMultiViewImage.effective_scales,
    RandomScaleImageMultiViewImage.focal_lens, get_imgs.
  split.
  - intros -> ->. by destruct (RandomScaleImageMultiViewImage.random_scale self).
  - intros Href ->.
    by destruct (RandomScaleImageMultiViewImage.ref_focal_len self).
Qed.

(** X20: in the random-ratio mode one sample is read for every image,
    and with samples in [[0, 1)] and a range [[lo, hi]], [lo <= hi],
    there is one ratio under ['focal_ratios'] for every image and every
    ratio lies in the range. *)
Theorem rescale_random_ratio_range
    (interp : ndarray -> nat -> nat -> nat -> nat -> pixel)
    (self : RandomScaleImageMultiViewImage.t) (results : gmap string pyval) (g : rng)
    (imgs : list ndarray) (s lo hi : Q) :
  RandomScaleImageMultiViewImage.__init__ [s] None (Some [lo; hi]) None = Ok self ->
  ~ (s == 0)%Q ->
  results !! "img" = Some (VImgs imgs) ->
  unit_tape (tape g) ->
  (lo <= hi)%Q ->
  exists results' focal_ratios,
    RandomScaleImageMultiViewImage.__call__ interp self results g
    = Ok (results', Rng (tape g) (cursor g + length imgs))
    /\ results' !! "focal_ratios" = Some (VFloats focal_ratios)
    /\ length focal_ratios = length imgs
    /\ Forall (fun r => (lo <= r)%Q /\ (r <= hi)%Q) focal_ratios.
Proof.
  intros Hinit Hs Himg Hunit Hrange. injection Hinit as <-.
  set (self := {| RandomScaleImageMultiViewImage.scales := [s];
                  RandomScaleImageMultiViewImage.ref_focal_len := None;
                  RandomScaleImageMultiViewImage.random_scale := Some [lo; hi];
                  RandomScaleImageMultiViewImage.pad_scale_rate := [s; s] |}).
  destruct (effective_scales_random self results g imgs s lo hi) as [Heff Hlen];
    try done.
  rewrite np_random_rand_rng in Heff.
  set (frs := map (fun u => (u * (hi - lo) + lo)%Q)
                (fst (np_random_rand (length imgs) g))) in *.
  pose proof (rescale_call interp self results _ g _ imgs _ s s Himg Heff) as Hcall.
  rewrite Hcall; [|by rewrite length_map, Hlen|done|done|done|done].
  do 2 eexists. split; [done|].
  split; [by simplify_map_eq|]. split; [done|].
  { unfold frs. apply Forall_fmap.
    eapply Forall_impl; [by apply np_random_rand_unit|].
    intros u [Hu0 Hu1]. simpl.
    assert (H0 : (0 <= u * (hi - lo))%Q) by (apply Qmult_le_0_compat; [done | lra]).
    assert (H1 : (u * (hi - lo) <= 1 * (hi - lo))%Q).
    { apply Qmult_le_compat_r; [by apply Qlt_le_weak | lra]. }
    split; lra. }
Qed.

(** ** The normaliser before the distorter *)

(** X21: the distorter accepts what the normaliser returns.  Whatever
    the element types of the images of a record, the record returned by
    the normaliser holds [float32] images only, so that a call of the
    distorter on it passes every assertion and returns, with one image
    for every image. *)
Theorem normalize_then_photometric (bgr2hsv_px hsv2bgr_px : pixel -> pixel)
    (norm : NormalizeMultiviewImage.t)
    (self : PhotoMetricDistortionMultiViewImage.t)
    (results : gmap string pyval) (imgs : list ndarray) (g : rng) :
  results !! "img" = Some (VImgs imgs) ->
  exists r1 r2 out g',
    NormalizeMultiviewImage.__call__ norm results = Ok r1
    /\ PhotoMetricDistortionMultiViewImage.__call__ bgr2hsv_px hsv2bgr_px self r1 g
       = Ok (r2, g')
    /\ r2 !! "img" = Some (VImgs out)
    /\ length out = length imgs
    /\ r2 !! "img_norm_cfg"
       = Some (VNormCfg (NormalizeMultiviewImage.mean norm)
                 (NormalizeMultiviewImage.std norm)
                 (NormalizeMultiviewImage.to_rgb norm)).
Proof.
  intros Himg. unfold NormalizeMultiviewImage.__call__.
  rewrite (get_imgs_Some _ _ _ Himg). simpl.
  set (normed := map (fun img => mmcv.imnormalize img
                        (NormalizeMultiviewImage.mean norm)
                        (NormalizeMultiviewImage.std norm)
                        (NormalizeMultiviewImage.to_rgb norm)) imgs).
  assert (Hall : Forall (fun img => dtype img = float32) normed).
  { unfold normed. apply Forall_fmap, Forall_forall. by intros img _. }
  destruct (distort_all_float32 bgr2hsv_px hsv2bgr_px self normed g Hall)
    as (out & g' & Hdist & Hlay).
  eexists. exists (<["img" := VImgs out]>
    (<["img_norm_cfg" := VNormCfg (NormalizeMultiviewImage.mean norm)
         (NormalizeMultiviewImage.std norm) (NormalizeMultiviewImage.to_rgb norm)]>
       (<["img" := VImgs normed]> results))), out, g'.
  split; [done|]. split.
  - unfold PhotoMetricDistortionMultiViewImage.__call__.
    rewrite (get_imgs_Some _ _ normed) by (by simplify_map_eq).
    simpl. by rewrite Hdist.
  - split; [by simplify_map_eq|]. split; [|by simplify_map_eq].
    apply Forall2_length in Hlay. rewrite <- Hlay. unfold normed. apply length_map.
Qed.

(** ** The further properties on the sample inputs *)

Lemma sample_record_extra_pad_input : pad_input sample_record_extra.
Proof.
  split; [by eexists|]. split; [right; by eexists | by left].
Qed.

(** The sample padder on the record with a second list. *)
Lemma pad_call_records_mode_witness :
  exists results',
    PadMultiViewImage.__init__ (Some (2, 3)) (Some 32) 0 = Ok sample_padder
    /\ PadMultiViewImage.__call__ sample_padder sample_record_extra = Ok results'
    /\ results' !! "pad_fixed_size" = Some (VSize (2, 3))
    /\ results' !! "pad_size_divisor" = Some VNone.
Proof.
  eexists. split; [reflexivity|]. split; [reflexivity|].
  destruct (pad_call_records_mode (Some (2, 3)) (Some 32) 0 sample_padder
              sample_record_extra _ eq_refl eq_refl) as (H1 & H2 & _).
  split; [exact H1 | exact H2].
Defined.

Lemma pad_call_frame_witness :
  exists results',
    PadMultiViewImage.__call__ sample_padder sample_record_extra = Ok results'
    /\ dom results' = dom sample_record_extra ∪ {["pad_fixed_size"; "pad_size_divisor"]}
    /\ results' !! "ori_img" = None
    /\ results' !! "flip" = Some (VBool true).
Proof.
  destruct (pad_call_frame (Some (2, 3)) (Some 32) 0 sample_padder sample_record_extra
              eq_refl ltac:(discriminate) sample_record_extra_pad_input)
    as (results' & Hcall & Hdom & Hopt & Hframe).
  exists results'. split; [exact Hcall|]. split; [exact Hdom|]. split.
  - apply Hopt; [|reflexivity]. apply list_elem_of_further, list_elem_of_here.
  - rewrite Hframe; [reflexivity| | |]; try discriminate.
    unfold image_keys. rewrite !elem_of_cons, elem_of_nil.
    intros [?|[?|[?|[]]]]; discriminate.
Defined.

Lemma pad_call_errors_witness :
  PadMultiViewImage.__call__ sample_padder ∅ = Raise KeyError.
Proof.
  apply (pad_call_errors (Some (2, 3)) (Some 32) 0 sample_padder ∅ eq_refl).
  reflexivity.
Defined.

Lemma pad_call_idempotent_witness :
  exists results',
    PadMultiViewImage.__call__ sample_padder sample_record_extra = Ok results'
    /\ PadMultiViewImage.__call__ sample_padder results' = Ok results'.
Proof.
  apply (pad_call_idempotent (Some (2, 3)) (Some 32) 0 sample_padder
           sample_record_extra eq_refl).
  - discriminate.
  - exact sample_record_extra_pad_input.
Defined.

(** The flipper on the empty record and on the sample record. *)
Lemma flip_call_without_img_witness :
  RandomFlip.__call__ (RandomFlip.__init__ (1 # 2)) ∅ (constant_rng (1 # 4))
  = Raise KeyError
  /\ RandomFlip.__call__ (RandomFlip.__init__ (1 # 2)) ∅ (constant_rng (3 # 4))
     = Ok (<["flip" := VBool false]> ∅, Rng (fun _ => 3 # 4) 1).
Proof.
  split.
  - apply (flip_call_without_img (RandomFlip.__init__ (1 # 2)) ∅
             (constant_rng (1 # 4)) (lookup_empty "img")).
    reflexivity.
  - apply (flip_call_without_img (RandomFlip.__init__ (1 # 2)) ∅
             (constant_rng (3 # 4)) (lookup_empty "img")).
    discriminate.
Defined.

Lemma flip_call_frame_witness :
  exists results' g',
    RandomFlip.__call__ (RandomFlip.__init__ (1 # 2)) sample_record_extra
      (constant_rng (1 # 4)) = Ok (results', g')
    /\ g' = Rng (fun _ => 1 # 4) 1
    /\ dom results' = dom sample_record_extra ∪ {["flip"]}.
Proof.
  do 2 eexists. split; [reflexivity|].
  destruct (flip_call_frame (RandomFlip.__init__ (1 # 2)) sample_record_extra _
              [sample_img; sample_img] (constant_rng (1 # 4)) _ eq_refl eq_refl)
    as (Hg & Hdom & _).
  split; [exact Hg | exact Hdom].
Defined.

Lemma flip_twice_restores_witness :
  exists r1 r2,
    RandomFlip.__call__ (RandomFlip.__init__ 1) sample_record (constant_rng (1 # 4))
    = Ok (r1, Rng (fun _ => 1 # 4) 1)
    /\ RandomFlip.__call__ (RandomFlip.__init__ 1) r1 (Rng (fun _ => 1 # 4) 1)
       = Ok (r2, Rng (fun _ => 1 # 4) 2)
    /\ r2 !! "img" = Some (VImgs [sample_img; sample_img])
    /\ r2 !! "flip" = Some (VBool true).
Proof.
  destruct (flip_twice_restores (RandomFlip.__init__ 1) sample_record
              [sample_img; sample_img] (constant_rng (1 # 4)) eq_refl)
    as (r1 & r2 & H1 & H2 & _ & H3 & H4).
  - intros n. split; [discriminate | reflexivity].
  - discriminate.
  - exists r1, r2. split; [exact H1|]. split; [exact H2|]. split; [exact H3 | exact H4].
Defined.

(** The default distorter on the sample record. *)
Lemma photometric_draw_count_witness :
  exists results' g',
    PhotoMetricDistortionMultiViewImage.__call__ swap_rb swap_rb default_distorter
      sample_record (constant_rng (3 # 4)) = Ok (results', g')
    /\ (0 + 6 * 2 <= cursor g')%nat /\ (cursor g' <= 0 + 11 * 2)%nat.
Proof.
  assert (Hcall : exists results' g',
    PhotoMetricDistortionMultiViewImage.__call__ swap_rb swap_rb default_distorter
      sample_record (constant_rng (3 # 4)) = Ok (results', g')).
  { do 2 eexists. vm_compute. reflexivity. }
  destruct Hcall as (results' & g' & Hcall).
  exists results', g'. split; [exact Hcall|].
  destruct (photometric_draw_count swap_rb swap_rb default_distorter sample_record
              results' [sample_img; sample_img] (constant_rng (3 # 4)) g'
              eq_refl Hcall) as (_ & Hlo & Hhi).
  split; [exact Hlo | exact Hhi].
Defined.

Lemma photometric_all_tails_witness :
  PhotoMetricDistortionMultiViewImage.__call__ swap_rb swap_rb default_distorter
    sample_record (constant_rng (1 # 4))
  = Ok (sample_record, Rng (fun _ => 1 # 4) (0 + 6 * 2)).
Proof.
  apply (photometric_all_tails swap_rb swap_rb default_distorter sample_record
           [sample_img; sample_img] (constant_rng (1 # 4)) eq_refl).
  - intros img Hin.
    repeat (apply elem_of_cons in Hin as [->|Hin]); try reflexivity.
    by apply elem_of_nil in Hin.
  - intros n. reflexivity.
  - intros [[a b] c]. reflexivity.
Defined.

Lemma random_hue_turns_modulo_360_witness :
  exists p',
    at_px (PhotoMetricDistortionMultiViewImage.random_hue 18 sample_hsv) 0 0 = Some p'
    /\ channel C1 p' = 1%Q /\ channel C2 p' = 1%Q
    /\ ((hue p' == 350 + 18)%Q \/ (hue p' == 350 + 18 - 360)%Q
        \/ (hue p' == 350 + 18 + 360)%Q).
Proof.
  exact (random_hue_turns_modulo_360 18 sample_hsv 0 0 (350, 1, 1)%Q eq_refl).
Defined.

(** The rescalers on the sample records. *)
Lemma rescale_focal_too_few_witness :
  RandomScaleImageMultiViewImage.__call__ black focal_rescaler
    sample_record_two_views (constant_rng 0) = Raise IndexError.
Proof.
  apply (rescale_focal_too_few black focal_rescaler sample_record_two_views
           (constant_rng 0) [sample_5x9; sample_5x9] (1 # 2) 900 (1 # 2) (1 # 2)
           [[[1200; 0; 800]; [0; 1200; 450]; [0; 0; 1]]%Q] [1200%Q]);
    try reflexivity; try discriminate.
  - constructor; [|constructor]. do 2 eexists. split; [reflexivity | discriminate].
  - simpl. lia.
Defined.

Lemma rescale_short_pad_rate_witness :
  exists self,
    RandomScaleImageMultiViewImage.__init__ [1 # 2] None None (Some [1 # 2]) = Ok self
    /\ RandomScaleImageMultiViewImage.__call__ black self sample_record (constant_rng 0)
       = Raise IndexError.
Proof.
  eexists. split; [reflexivity|].
  apply (rescale_short_pad_rate black _ sample_record (constant_rng 0)
           [sample_img; sample_img] (1 # 2) [1 # 2] eq_refl).
  - simpl. lia.
  - reflexivity.
  - discriminate.
Defined.

Lemma rescale_never_enlarges_witness :
  exists results' out,
    RandomScaleImageMultiViewImage.__call__ black half_rescaler
      {["img" := VImgs [sample_5x9]]} (constant_rng 0)
    = Ok (results', constant_rng 0)
    /\ results' !! "img" = Some (VImgs out)
    /\ Forall2 (fun img o => exists h w,
         has_shape o h w /\ (h <= shape0 img)%nat /\ (w <= shape1 img)%nat)
         [sample_5x9] out.
Proof.
  apply (rescale_never_enlarges black half_rescaler {["img" := VImgs [sample_5x9]]}
           {["img" := VImgs [sample_5x9]]} (constant_rng 0) (constant_rng 0)
           [sample_5x9] [1 # 2] (1 # 2) (1 # 2)).
  - reflexivity.
  - reflexivity.
  - apply le_n.
  - reflexivity.
  - reflexivity.
  - discriminate.
  - discriminate.
  - intros s Hs. apply list_elem_of_singleton in Hs as ->.
    split; discriminate.
  - intros img Hi. apply list_elem_of_singleton in Hi as ->.
    split; vm_compute; discriminate.
Defined.

Lemma rescale_whole_scale_witness :
  exists self results' out,
    RandomScaleImageMultiViewImage.__init__ [inject_Z (Z.of_nat 2)] None None None
    = Ok self
    /\ RandomScaleImageMultiViewImage.__call__ black self
         {["img" := VImgs [sample_5x9]]} (constant_rng 0)
       = Ok (results', constant_rng 0)
    /\ results' !! "img" = Some (VImgs out)
    /\ Forall2 (fun img o => has_shape o (shape0 img * 2) (shape1 img * 2))
         [sample_5x9] out.
Proof.
  eexists.
  destruct (rescale_whole_scale black _ {["img" := VImgs [sample_5x9]]}
              (constant_rng 0) [sample_5x9] 2 ltac:(lia) eq_refl eq_refl)
    as (results' & out & Hcall & Himg & Hall).
  { intros img Hi. apply list_elem_of_singleton in Hi as ->.
    split; vm_compute; discriminate. }
  exists results', out. split; [reflexivity|].
  split; [exact Hcall|]. split; [exact Himg | exact Hall].
Defined.

Lemma rescale_call_frame_witness :
  exists results' g',
    RandomScaleImageMultiViewImage.__call__ black focal_rescaler
      sample_record_focal (constant_rng 0) = Ok (results', g')
    /\ g' = constant_rng 0
    /\ results' !! "metas" = sample_record_focal !! "metas".
Proof.
  do 2 eexists. split; [vm_compute; reflexivity|].
  destruct (rescale_call_frame black focal_rescaler sample_record_focal _
              (constant_rng 0) _ eq_refl) as (Hg & _ & Hframe).
  split; [exact (Hg eq_refl)|].
  apply Hframe. rewrite !elem_of_cons, elem_of_nil.
  intros [?|[?|[?|[?|[]]]]]; discriminate.
Defined.

Lemma rescale_random_ratio_range_witness :
  exists self results' focal_ratios,
    RandomScaleImageMultiViewImage.__init__ [1 # 2] None (Some [4 # 5; 6 # 5]) None
    = Ok self
    /\ RandomScaleImageMultiViewImage.__call__ black self sample_record
         (constant_rng (1 # 2))
       = Ok (results', Rng (fun _ => 1 # 2) (0 + 2))
    /\ results' !! "focal_ratios" = Some (VFloats focal_ratios)
    /\ Forall (fun r => (4 # 5 <= r)%Q /\ (r <= 6 # 5)%Q) focal_ratios.
Proof.
  eexists.
  destruct (rescale_random_ratio_range black _ sample_record (constant_rng (1 # 2))
              [sample_img; sample_img] (1 # 2) (4 # 5) (6 # 5) eq_refl)
    as (results' & frs & Hcall & Hfr & _ & Hrange).
  - discriminate.
  - reflexivity.
  - intros n. split; [discriminate | reflexivity].
  - discriminate.
  - exists results', frs. split; [reflexivity|].
    split; [exact Hcall|]. split; [exact Hfr | exact Hrange].
Defined.

(** The normaliser and then the distorter on the record with a view
    left as bytes. *)
Lemma normalize_then_photometric_witness :
  exists r1 r2 out g',
    NormalizeMultiviewImage.__call__
      (NormalizeMultiviewImage.__init__ (1, 2, 3)%Q (2, 4, 5)%Q true)
      sample_record_uint8 = Ok r1
    /\ PhotoMetricDistortionMultiViewImage.__call__ swap_rb swap_rb default_distorter
         r1 (constant_rng (3 # 4)) = Ok (r2, g')
    /\ r2 !! "img" = Some (VImgs out)
    /\ length out = 2%nat.
Proof.
  destruct (normalize_then_photometric swap_rb swap_rb
              (NormalizeMultiviewImage.__init__ (1, 2, 3)%Q (2, 4, 5)%Q true)
              default_distorter sample_record_uint8 [sample_img; sample_uint8]
              (constant_rng (3 # 4)) eq_refl)
    as (r1 & r2 & out & g' & H1 & H2 & H3 & H4 & _).
  exists r1, r2, out, g'.
  split; [exact H1|]. split; [exact H2|]. split; [exact H3 | exact H4].
Defined.
